(** * inaudible: transcript merging, windowing and chunked transformation

    A shallow embedding of the three scripts of the repository
    ([scripts/fetch-transcript.py], [scripts/edit-transcript.py] and
    [scripts/translate.py]) together with the properties their
    specification states about them.

    Conventions of the embedding:
    - a Python [float] is a binary64 value: Rocq's primitive [float], with
      the same IEEE 754 operations and comparisons;
    - a Python [str] is a [string] holding the bytes of its UTF-8 encoding
      (the scripts' own literals and the ASCII separators they split on;
      the whitespace characters [strip] removes, ASCII or not, are told
      by their encodings);
    - a Python [int] is a [Z];
    - a [dict] with the keys [start], [duration] and [text] is the record
      [Segment]; where the code mutates such a dict in place, the objects
      live in a store and lists hold references to them. *)

From Stdlib Require Import ZArith List String Ascii Bool Lia Floats.
From Stdlib Require Import DecimalString.
From stdpp Require Import base option list gmap strings.

Local Open Scope string_scope.
Local Open Scope Z_scope.
Local Open Scope list_scope.

(** ** Segments *)

Record Segment := mkSegment {
  start : float;
  duration : float;
  text : string
}.

(** ** The Python built-ins the scripts use *)

Module Py.

(** The newline character and the string ["\n"]. *)
Definition nl_char : ascii := ascii_of_nat 10.
Definition nl : string := String nl_char EmptyString.

(** [str(n)] for an [int]. *)
Definition str_int (n : Z) : string := NilEmpty.string_of_int (Z.to_int n).

(** The format specification [:02d]: at least two characters, padded with
    zeros on the left (a minus sign counts towards the width). *)
Definition fmt_02d (n : Z) : string :=
  if (0 <=? n) && (n <? 10) then "0" +:+ str_int n else str_int n.

(** [s.split(sep)] for a separator of one character: never empty. *)
Fixpoint split (sep : ascii) (s : string) : list string :=
  match s with
  | EmptyString => [EmptyString]
  | String a s' =>
      if Ascii.eqb a sep then EmptyString :: split sep s'
      else match split sep s' with
           | w :: ws => String a w :: ws
           | [] => [String a EmptyString]
           end
  end.

(** [s.split(sep, 1)]: at most one split, at the first separator. *)
Fixpoint split1 (sep : ascii) (s : string) : list string :=
  match s with
  | EmptyString => [EmptyString]
  | String a s' =>
      if Ascii.eqb a sep then [EmptyString; s']
      else match split1 sep s' with
           | w :: ws => String a w :: ws
           | [] => [String a EmptyString]
           end
  end.

(** [sep.join(l)]. *)
Fixpoint join (sep : string) (l : list string) : string :=
  match l with
  | [] => EmptyString
  | [x] => x
  | x :: tl => x +:+ sep +:+ join sep tl
  end.

(** [s.find(sub)]: the least index at which [sub] occurs in [s];
    [s.index(sub)] is the same and raises [ValueError] on [None]. *)
Fixpoint find (sub s : string) : option nat :=
  if String.prefix sub s then Some 0%nat
  else match s with
       | EmptyString => None
       | String _ s' => S <$> find sub s'
       end.

(** [sub in s]. *)
Definition contains (sub s : string) : bool := bool_decide (is_Some (find sub s)).

(** [s[i:j]] for indices [0 <= i] and [0 <= j]; the slice is empty when
    [j <= i], and both ends are clamped to the length of [s]. *)
Definition slice_str (s : string) (i j : nat) : string :=
  String.substring i (j - i) s.

(** *** Whitespace

    [str.strip()] removes, at both ends, the characters for which
    [str.isspace] holds.  In ASCII these are tab to carriage return (9 to
    13), the four separators 28 to 31 and the space; beyond ASCII they are
    U+0085, U+00A0, U+1680, U+2000 to U+200A, U+2028, U+2029, U+202F,
    U+205F and U+3000.  A [str] being held as its UTF-8 bytes, such a
    character is one byte, or one of the following sequences of two or
    three bytes; in a UTF-8 text none of them begins or ends inside
    another character. *)

(** The ASCII whitespace characters. *)
Definition isspace (c : ascii) : bool :=
  let n := nat_of_ascii c in
  ((9 <=? n) && (n <=? 13) || (28 <=? n) && (n <=? 32))%nat.

(** U+0085 (bytes C2 85) and U+00A0 (C2 A0). *)
Definition isspace2 (a b : ascii) : bool :=
  let a := nat_of_ascii a in
  let b := nat_of_ascii b in
  ((a =? 194) && ((b =? 133) || (b =? 160)))%nat.

(** U+1680 (E1 9A 80), U+2000 to U+200A (E2 80 80 to E2 80 8A), U+2028
    and U+2029 (E2 80 A8, E2 80 A9), U+202F (E2 80 AF), U+205F (E2 81 9F)
    and U+3000 (E3 80 80). *)
Definition isspace3 (a b c : ascii) : bool :=
  let a := nat_of_ascii a in
  let b := nat_of_ascii b in
  let c := nat_of_ascii c in
  ((a =? 225) && (b =? 154) && (c =? 128)
   || (a =? 226) && (b =? 128)
      && ((128 <=? c) && (c <=? 138) || (c =? 168) || (c =? 169) || (c =? 175))
   || (a =? 226) && (b =? 129) && (c =? 159)
   || (a =? 227) && (b =? 128) && (c =? 128))%nat.

(** The string without the whitespace characters it starts with, for
    characters of two and three bytes told by [sp2] and [sp3]. *)
Fixpoint lstrip_with (sp2 : ascii → ascii → bool)
    (sp3 : ascii → ascii → ascii → bool) (s : string) : string :=
  match s with
  | EmptyString => EmptyString
  | String a s1 =>
      if isspace a then lstrip_with sp2 sp3 s1
      else match s1 with
           | EmptyString => s
           | String b s2 =>
               if sp2 a b then lstrip_with sp2 sp3 s2
               else match s2 with
                    | EmptyString => s
                    | String c s3 =>
                        if sp3 a b c then lstrip_with sp2 sp3 s3 else s
                    end
           end
  end.

(** [s.lstrip()]. *)
Definition lstrip (s : string) : string := lstrip_with isspace2 isspace3 s.

(** [s.rstrip()]: the same from the other end, on the bytes in reverse
    order. *)
Definition rstrip (s : string) : string :=
  String.rev
    (lstrip_with (λ a b, isspace2 b a) (λ a b c, isspace3 c b a) (String.rev s)).

(** [s.strip()]. *)
Definition strip (s : string) : string := rstrip (lstrip s).

(** The truth value of a [str]: false exactly for the empty string. *)
Definition truthy_str (s : string) : bool :=
  match s with EmptyString => false | _ => true end.

(** [range(start, stop, step)] as the list it iterates over;
    [ValueError] ([None]) when [step] is zero. *)
Definition range (start stop step : Z) : option (list Z) :=
  if step =? 0 then None
  else
    let n :=
      if 0 <? step
      then (if start <? stop then (stop - start - 1) / step + 1 else 0)
      else (if stop <? start then (start - stop - 1) / (- step) + 1 else 0) in
    Some (map (λ k : nat, start + Z.of_nat k * step) (seq 0 (Z.to_nat n))).

(** A slice bound brought into [0 .. len]: a negative bound counts from
    the end. *)
Definition clamp (len i : Z) : Z :=
  if i <? 0 then Z.max 0 (i + len) else Z.min i len.

(** [l[i:j]]. *)
Definition slice {A} (l : list A) (i j : Z) : list A :=
  let len := Z.of_nat (length l) in
  let a := clamp len i in
  let b := clamp len j in
  take (Z.to_nat (b - a)) (drop (Z.to_nat a) l).

(** The integer [int(math.floor(x))] of a finite float, computed exactly
    from its sign, mantissa and exponent; [None] for an infinity or a
    NaN, which [int] refuses. *)
Definition floor_float (x : float) : option Z :=
  match Prim2SF x with
  | S754_zero _ => Some 0
  | S754_finite sgn m e =>
      let n := if sgn then Z.neg m else Z.pos m in
      Some (if 0 <=? e then n * 2 ^ e else n / 2 ^ (- e))
  | S754_infinity _ => None
  | S754_nan => None
  end.

End Py.

(** ** [format_time], the same in the three scripts

    [seconds // 3600], [seconds % 3600] and [seconds % 60] are float
    operations whose results [int] truncates.  For [0 <= seconds < 2^53]
    each of them is exact, so that the three fields are the quotients and
    remainders of the integer [floor(seconds)]; the embedding computes
    them that way, and it is on this range that it gives the stamp the
    code prints.  Outside of it the float operations round (a start just
    below zero is printed as [60:60], and the hours of a start of [2^53]
    and more can be off), and the properties that state what a stamp is
    are stated for the range.  That [format_time] returns is as in the
    code for every argument: [int] raises on the NaN that an infinite or
    NaN argument leads to ([None]), and on nothing else. *)
Definition format_time (seconds : float) : option string :=
  fl ← Py.floor_float seconds;
  let h := fl / 3600 in
  let m := (fl mod 3600) / 60 in
  let s := fl mod 60 in
  Some (if 0 <? h
        then Py.str_int h +:+ ":" +:+ Py.fmt_02d m +:+ ":" +:+ Py.fmt_02d s
        else Py.str_int m +:+ ":" +:+ Py.fmt_02d s).

(** ** [chunk_segments], the same in [edit-transcript.py] (default 40) and
    [translate.py] (default 50) *)
Definition chunk_segments {A} (segments : list A) (max_segments : Z)
    : option (list (list A)) :=
  idxs ← Py.range 0 (Z.of_nat (length segments)) max_segments;
  Some (map (λ i, Py.slice segments i (i + max_segments)) idxs).


(** ** The external service and what a run leaves behind *)

(** The arguments of [client.messages.create]. *)
Record Request := mkRequest {
  model : string;
  max_tokens : Z;
  system : string;
  content : string
}.

(** The service, as the driver sees it: the answer ([response.content[0].text])
    to the [n]-th call of a run, or an exception ([None]). *)
Definition Client := nat → Request → option string.

(** The observable steps of a run, in order. *)
Inductive Event :=
  | Print (line : string)
  | Call (request : Request) (response : option string)
  | WriteFile (path data : string)
  | WriteJson (path : string) (segments : list Segment).

(** How a run ends: it returns, [sys.exit(code)], or an uncaught exception. *)
Inductive Exit :=
  | Returned
  | SysExit (code : Z)
  | Raised.

Record Outcome := mkOutcome {
  trace : list Event;
  exit : Exit
}.

(** The requests a trace sent to the service and the answers it received. *)
Definition requests (t : list Event) : list Request :=
  omap (λ e, match e with Call r _ => Some r | _ => None end) t.

Definition responses (t : list Event) : list string :=
  omap (λ e, match e with Call _ (Some a) => Some a | _ => None end) t.

(** A JSON value of [meta.json], and [str] and truth value of it. *)
Inductive PyVal :=
  | VStr (s : string)
  | VInt (n : Z)
  | VBool (b : bool)
  | VNone.

Definition py_str (v : PyVal) : string :=
  match v with
  | VStr s => s
  | VInt n => Py.str_int n
  | VBool true => "True"
  | VBool false => "False"
  | VNone => "None"
  end.

Definition py_truthy (v : PyVal) : bool :=
  match v with
  | VStr s => Py.truthy_str s
  | VInt n => negb (n =? 0)
  | VBool b => b
  | VNone => false
  end.

(** What the scripts read: the command line, the files of the project
    tree by path (already decoded: transcripts, metadata objects, HTML
    text), whether [ANTHROPIC_API_KEY] is in the environment once
    [load_env] has run, and the service. *)
Record World := mkWorld {
  argv : list string;
  project_root : string;
  transcripts : gmap string (list Segment);
  metas : gmap string (gmap string PyVal);
  htmls : gmap string string;
  api_key : bool;
  client : Client
}.

(** [os.path.join] of relative components. *)
Definition path_join (parts : list string) : string := Py.join "/" parts.

(** [argv.index(flag)] and the value after it: the parsing of a
    [--flag value] pair, [default] when the flag or its value is absent. *)
Fixpoint index_of (x : string) (l : list string) : option nat :=
  match l with
  | [] => None
  | y :: tl => if String.eqb y x then Some 0%nat else S <$> index_of x tl
  end.

Definition flag_value (args : list string) (flag default : string) : string :=
  match index_of flag args with
  | Some idx => match args !! S idx with Some v => v | None => default end
  | None => default
  end.

(** The lines both scripts build for the service from a chunk. *)
Fixpoint text_block (segments : list Segment) : option string :=
  match segments with
  | [] => Some EmptyString
  | seg :: rest =>
      t ← format_time (start seg);
      tl ← text_block rest;
      Some ("[" +:+ t +:+ "] " +:+ text seg +:+ Py.nl +:+ tl)
  end.

(** One entry of the list [lines] of the Markdown rendering (the same
    expression in [save_transcript] of [fetch-transcript.py] and in [main]
    of [translate.py]). *)
Definition md_entry (seg : Segment) : option string :=
  t ← format_time (start seg);
  Some ("**[" +:+ t +:+ "]** " +:+ text seg +:+ Py.nl).

(** The text written to the Markdown file: [nl.join(lines)], where [nl] is the newline. *)
Definition markdown (segments : list Segment) : option string :=
  lines ← mapM md_entry segments;
  Some (Py.join Py.nl lines).


(** ** [fetch-transcript.py]: merging raw segments into paragraphs *)

Module Fetch.

Local Open Scope float_scope.

(** [should_break] of the loop body of [merge_into_paragraphs]. *)
Definition should_break (target_duration pause_threshold : float)
    (current seg : Segment) : bool :=
  let current_end := start current + duration current in
  let gap := start seg - current_end in
  let current_len := duration current in
  (PrimFloat.ltb pause_threshold gap && PrimFloat.leb 10 current_len)
  || PrimFloat.leb target_duration current_len.

(** The [else] branch: the two assignments to [current]. *)
Definition extend (current seg : Segment) : Segment :=
  {| start := start current;
     duration := (start seg + duration seg) - start current;
     text := text current +:+ " " +:+ text seg |}.

(** One iteration of [for seg in segments[1:]] on the pair of local
    variables [(merged, current)]. *)
Definition merge_step (target_duration pause_threshold : float)
    (st : list Segment * Segment) (seg : Segment) : list Segment * Segment :=
  let '(merged, current) := st in
  if should_break target_duration pause_threshold current seg
  then (merged ++ [current], seg)
  else (merged, extend current seg).

(** [merge_into_paragraphs] on the values of the segments. *)
Definition merge_into_paragraphs (segments : list Segment)
    (target_duration pause_threshold : float) : list Segment :=
  match segments with
  | [] => segments
  | first :: rest =>
      let '(merged, current) :=
        fold_left (merge_step target_duration pause_threshold) rest ([], first) in
      merged ++ [current]
  end.

(** The defaults of the signature. *)
Definition default_target_duration : float := 30.
Definition default_pause_threshold : float := 1.5.

(** *** The same function on a store of objects

    The input list holds references to dict objects; [dict(seg)] allocates a
    copy, and the [else] branch updates the object [current] refers to in
    place.  A store is the list of the objects allocated so far and a
    reference is an index into it. *)

Abbreviation loc := nat.
Abbreviation store := (list Segment).

(** [dict(seg)]: a new object with the fields of the object at [r]. *)
Definition dict_copy (r : loc) (h : store) : option (loc * store) :=
  v ← h !! r; Some (length h, h ++ [v]).

Definition merge_step_store (target_duration pause_threshold : float)
    (st : option (list loc * loc * store)) (r : loc)
    : option (list loc * loc * store) :=
  '(merged, current, h) ← st;
  c ← h !! current;
  seg ← h !! r;
  if should_break target_duration pause_threshold c seg
  then '(current', h') ← dict_copy r h; Some (merged ++ [current], current', h')
  else Some (merged, current, <[current := extend c seg]> h).

Definition merge_into_paragraphs_store (segments : list loc)
    (target_duration pause_threshold : float) (h : store)
    : option (list loc * store) :=
  match segments with
  | [] => Some (segments, h)
  | first :: rest =>
      '(current, h0) ← dict_copy first h;
      '(merged, current', h') ←
        fold_left (merge_step_store target_duration pause_threshold) rest
                  (Some ([], current, h0));
      Some (merged ++ [current'], h')
  end.

(** The objects a list of references denotes. *)
Definition deref (h : store) (rs : list loc) : option (list Segment) :=
  mapM (λ r, h !! r) rs.

(** *** Groups: what one merged segment is made of *)

(** The merged segment of a non-empty run of consecutive segments, as the
    loop builds it: the first segment extended by each later one. *)
Definition merge_group (first : Segment) (rest : list Segment) : Segment :=
  fold_left extend rest first.

Definition group_segment (g : list Segment) : option Segment :=
  match g with
  | [] => None
  | first :: rest => Some (merge_group first rest)
  end.

(** The end time of a segment, [start + duration]. *)
Definition seg_end (s : Segment) : float := start s + duration s.

(** Time-ordered and non-overlapping: each segment ends no later than the
    next one starts. *)
Fixpoint time_ordered (l : list Segment) : bool :=
  match l with
  | a :: ((b :: _) as tl) =>
      PrimFloat.leb (seg_end a) (start b) && time_ordered tl
  | _ => true
  end.

(** [save_transcript]: the JSON file, then the Markdown file. *)
Definition save_transcript (segments : list Segment) (episode_dir : string)
    : Outcome :=
  let json_path := path_join [episode_dir; "transcript.en.json"] in
  let md_path := path_join [episode_dir; "transcript.en.md"] in
  let t :=
    [WriteJson json_path segments;
     Print ("  Saved JSON: " +:+ json_path +:+ " ("
            +:+ Py.str_int (Z.of_nat (length segments)) +:+ " segments)")] in
  match markdown segments with
  | None => {| trace := t; exit := Raised |}
  | Some md =>
      {| trace := t ++ [WriteFile md_path md;
                        Print ("  Saved Markdown: " +:+ md_path)];
         exit := Returned |}
  end.

End Fetch.


(** ** [edit-transcript.py] *)

Module Edit.

Abbreviation NL := Py.nl.

Definition default_max_segments : Z := 40.

(** [lang_names.get(lang, lang)]. *)
Definition lang_names : gmap string string :=
  {[ "es" := "Spanish"; "en" := "English" ]}.

Definition lang_name (lang : string) : string :=
  default lang (lang_names !! lang).

(** [meta.get(key, '')] as an f-string renders it. *)
Definition meta_get (meta : gmap string PyVal) (key : string) : string :=
  match meta !! key with
  | Some v => py_str v
  | None => EmptyString
  end.

(** The truth value of [reference_html : str | None]. *)
Definition has_reference (reference_html : option string) : bool :=
  match reference_html with
  | Some s => Py.truthy_str s
  | None => false
  end.

Definition exemplar_instruction (html : string) : string :=
  NL +:+ NL +:+ "Here is a COMPLETE reference HTML from another episode. "
  +:+ "Match this EXACT style, CSS, and HTML structure:" +:+ NL +:+ NL
  +:+ "```html" +:+ NL +:+ html +:+ NL +:+ "```" +:+ NL.

Definition consistency_instruction : string :=
  NL +:+ NL
  +:+ "Continue using the same HTML structure (sections, dialogue divs, "
  +:+ "speaker classes, blockquotes) as the previous chunks.".

(** The local [reference_instruction] of [edit_transcript]. *)
Definition reference_instruction (reference_html : option string)
    (chunk_index : Z) : string :=
  match reference_html with
  | Some html =>
      if Py.truthy_str html then
        if chunk_index =? 0 then exemplar_instruction html
        else consistency_instruction
      else EmptyString
  | None => EmptyString
  end.

(** The local [context_instruction]. *)
Definition context_instruction (previous_sections : string) : string :=
  if Py.truthy_str previous_sections then
    NL +:+ NL
    +:+ "Here are the section titles already generated in previous chunks "
    +:+ "(do NOT repeat these, create new section titles):" +:+ NL
    +:+ previous_sections
  else EmptyString.

Definition open_only : string :=
  "Generate a COMPLETE HTML document starting with <!DOCTYPE html>, "
  +:+ "including all CSS styles, the <header> section, and the first content sections. "
  +:+ "Do NOT close the </body> or </html> tags â€” more content will follow.".

Definition close_only : string :=
  "Generate ONLY the <section> HTML elements for this chunk's content. "
  +:+ "Do NOT include <!DOCTYPE>, <head>, <style>, or <header>. "
  +:+ "After the last section, add the closing <footer>, </body>, and </html> tags.".

Definition body_only : string :=
  "Generate ONLY the <section> HTML elements for this chunk's content. "
  +:+ "Do NOT include <!DOCTYPE>, <head>, <style>, or <header>.".

(** The local [structure_instruction]. *)
Definition structure_instruction (chunk_index total_chunks : Z) : string :=
  if chunk_index =? 0 then open_only
  else if chunk_index =? total_chunks - 1 then close_only
  else body_only.

Definition editing_rules : string :=
  "EDITING RULES:" +:+ NL
  +:+ "- Remove speech repetitions, filler words, false starts, and verbal tics" +:+ NL
  +:+ "- Clean up grammar while preserving the speaker's voice and meaning" +:+ NL
  +:+ "- Identify speakers by name (look for self-introductions or context clues)" +:+ NL
  +:+ "- Group related dialogue into thematic sections with descriptive <h2> titles" +:+ NL
  +:+ "- Use <blockquote> for channeled/quoted material with <span class='source'> attribution" +:+ NL
  +:+ "- Use CSS classes: 'speaker jeremy', 'speaker jamie', 'speaker nithin', 'speaker ryan' etc." +:+ NL
  +:+ "- Keep the conversational tone natural but readable" +:+ NL
  +:+ "- Preserve important spiritual/philosophical concepts accurately" +:+ NL
  +:+ "- Keep proper nouns as-is (Ra, Confederation, Law of One, etc.)" +:+ NL
  +:+ "- Return ONLY valid HTML, no markdown or explanations" +:+ NL +:+ NL.

(** The [system] argument of the call. *)
Definition system_prompt (meta : gmap string PyVal) (lang : string)
    (reference_html : option string) (chunk_index total_chunks : Z)
    (previous_sections : string) : string :=
  "You are an expert transcript editor for a podcast about the Law of One "
  +:+ "and Confederation philosophy. Your task is to create a clean, readable "
  +:+ "edited HTML transcript in " +:+ lang_name lang +:+ "." +:+ NL +:+ NL
  +:+ "Episode: " +:+ meta_get meta "title"
  +:+ " (Episode " +:+ meta_get meta "number" +:+ ")" +:+ NL
  +:+ "Description: " +:+ meta_get meta "description" +:+ NL
  +:+ "Duration: " +:+ meta_get meta "duration" +:+ NL +:+ NL
  +:+ editing_rules
  +:+ structure_instruction chunk_index total_chunks
  +:+ reference_instruction reference_html chunk_index
  +:+ context_instruction previous_sections.

(** The request [edit_transcript] sends; [None] when [format_time] raises
    on a segment's start. *)
Definition edit_request (segments : list Segment) (meta : gmap string PyVal)
    (lang : string) (reference_html : option string)
    (chunk_index total_chunks : Z) (previous_sections : string)
    : option Request :=
  block ← text_block segments;
  Some {| model := "claude-sonnet-4-5-20250929";
          max_tokens := 16000;
          system := system_prompt meta lang reference_html chunk_index
                      total_chunks previous_sections;
          content := "Edit and structure this transcript chunk ("
                     +:+ Py.str_int (chunk_index + 1) +:+ "/"
                     +:+ Py.str_int total_chunks +:+ "):" +:+ NL +:+ NL
                     +:+ block |}.

(** One line of [extract_section_titles]: the entry it appends, if any. *)
Definition title_of_line (line : string) : option string :=
  if Py.contains "<h2>" line && Py.contains "</h2>" line then
    i ← Py.find "<h2>" line;
    j ← Py.find "</h2>" line;
    Some ("- " +:+ Py.slice_str line (i + 4) j)
  else None.

(** The list [titles] of [extract_section_titles] before it is joined. *)
Definition section_titles (html : string) : list string :=
  omap title_of_line (Py.split Py.nl_char html).

Definition extract_section_titles (html : string) : string :=
  Py.join NL (section_titles html).

(** [load_reference_html]. *)
Definition load_reference_html (w : World) (episode_num lang : string)
    : option string :=
  htmls w !! path_join [project_root w; "content"; "episodes"; episode_num;
                        "transcript." +:+ lang +:+ ".html"].

(** The variables the loop of [main] carries from one chunk to the next,
    and the steps of the run so far. *)
Record Carrier := mkCarrier {
  all_html_parts : list string;
  previous_sections : string;
  steps : list Event
}.

(** The body of [for i, chunk in enumerate(chunks)]: the next carrier, or
    the steps up to an exception. *)
Definition process_chunk (cl : Client) (meta : gmap string PyVal)
    (lang : string) (reference_html : option string) (total_chunks : Z)
    (st : Carrier) (i : nat) (chunk : list Segment)
    : Carrier + list Event :=
  let progress :=
    Print ("  Chunk " +:+ Py.str_int (Z.of_nat i + 1) +:+ "/"
           +:+ Py.str_int total_chunks +:+ " ("
           +:+ Py.str_int (Z.of_nat (length chunk)) +:+ " segments)...") in
  match edit_request chunk meta lang reference_html (Z.of_nat i) total_chunks
          (previous_sections st) with
  | None => inr (steps st ++ [progress])
  | Some req =>
      match cl i req with
      | None => inr (steps st ++ [progress; Call req None])
      | Some html_part =>
          inl {| all_html_parts := all_html_parts st ++ [html_part];
                 previous_sections :=
                   previous_sections st
                   +:+ extract_section_titles html_part +:+ NL;
                 steps := steps st
                          ++ [progress; Call req (Some html_part); Print "done"] |}
      end
  end.

Fixpoint process_chunks (cl : Client) (meta : gmap string PyVal)
    (lang : string) (reference_html : option string) (total_chunks : Z)
    (i : nat) (chunks : list (list Segment)) (st : Carrier)
    : Carrier + list Event :=
  match chunks with
  | [] => inl st
  | chunk :: rest =>
      match process_chunk cl meta lang reference_html total_chunks st i chunk with
      | inl st' =>
          process_chunks cl meta lang reference_html total_chunks (S i) rest st'
      | inr t => inr t
      end
  end.

Definition usage : string :=
  "Usage: python edit-transcript.py <episode_number> [--lang es] [--reference 66]".

Definition main (w : World) : Outcome :=
  match argv w !! 1%nat with
  | None => {| trace := [Print usage]; exit := SysExit 1 |}
  | Some episode_num =>
      let lang := flag_value (argv w) "--lang" "es" in
      let reference_ep := flag_value (argv w) "--reference" "66" in
      let episode_dir :=
        path_join [project_root w; "content"; "episodes"; episode_num] in
      let source_path :=
        path_join [episode_dir; "transcript." +:+ lang +:+ ".json"] in
      match transcripts w !! source_path with
      | None =>
          {| trace := [Print ("Error: No " +:+ lang +:+ " transcript found at "
                              +:+ source_path)];
             exit := SysExit 1 |}
      | Some segments =>
          let meta_path := path_join [episode_dir; "meta.json"] in
          let meta := default ∅ (metas w !! meta_path) in
          let reference_html := load_reference_html w reference_ep lang in
          let t0 :=
            [Print (if has_reference reference_html
                    then "  Using episode " +:+ reference_ep +:+ " as style reference"
                    else "  No reference HTML found for episode " +:+ reference_ep
                         +:+ ", using defaults")] in
          if negb (api_key w) then
            {| trace := t0 ++ [Print "Error: ANTHROPIC_API_KEY not found.";
                               Print "Set it in .env.local or as an environment variable."];
               exit := SysExit 1 |}
          else
            let t1 := t0 ++
              [Print ("Editing Episode " +:+ episode_num +:+ " transcript ("
                      +:+ lang +:+ ")");
               Print ("  Source: " +:+ Py.str_int (Z.of_nat (length segments))
                      +:+ " segments")] in
            match chunk_segments segments default_max_segments with
            | None => {| trace := t1; exit := Raised |}
            | Some chunks =>
                let t2 := t1 ++
                  [Print ("  Processing " +:+ Py.str_int (Z.of_nat (length chunks))
                          +:+ " chunks...")] in
                match process_chunks (client w) meta lang reference_html
                        (Z.of_nat (length chunks)) 0 chunks
                        {| all_html_parts := []; previous_sections := EmptyString;
                           steps := t2 |} with
                | inr t => {| trace := t; exit := Raised |}
                | inl st =>
                    let full_html := Py.join (NL +:+ NL) (all_html_parts st) in
                    let output_path :=
                      path_join [episode_dir; "transcript." +:+ lang +:+ ".html"] in
                    {| trace := steps st ++
                                [WriteFile output_path full_html;
                                 Print ("  Saved: " +:+ output_path);
                                 Print "Done!"];
                       exit := Returned |}
                end
            end
      end
  end.

End Edit.

(** ** [translate.py] *)

Module Translate.

Abbreviation NL := Py.nl.

Definition default_max_segments : Z := 50.

(** The request [translate_chunk] sends; [None] when [format_time] raises. *)
Definition translate_request (segments : list Segment)
    (target_lang episode_context : string) : option Request :=
  block ← text_block segments;
  Some {| model := "claude-sonnet-4-5-20250929";
          max_tokens := 8000;
          system :=
            "You are a professional translator specializing in spiritual and philosophical content. "
            +:+ "You are translating a podcast transcript about the Law of One and Confederation philosophy. "
            +:+ "Context: " +:+ episode_context +:+ NL +:+ NL
            +:+ "Rules:" +:+ NL
            +:+ "- Translate from English to " +:+ target_lang +:+ NL
            +:+ "- Preserve the conversational tone" +:+ NL
            +:+ "- Keep proper nouns (Ra, Confederation, Law of One) as-is" +:+ NL
            +:+ "- Keep technical spiritual terms with their common Spanish equivalents" +:+ NL
            +:+ "- Preserve the timestamp markers exactly as [HH:MM:SS] or [M:SS]" +:+ NL
            +:+ "- Return ONLY the translated text with timestamps, no explanations" +:+ NL
            +:+ "- Each line must start with the timestamp in brackets";
          content := "Translate this transcript segment:" +:+ NL +:+ NL +:+ block |}.

(** The text kept from one translated line: what follows the first ["]"],
    stripped, or the whole line when it has none. *)
Definition line_text (line : string) : string :=
  if Py.contains "]" line
  then Py.strip (default EmptyString (Py.split1 "]" line !! 1%nat))
  else line.

(** The pairing of the loop [for seg, line in zip(segments, lines)]. *)
Definition translated_segment (seg : Segment) (line : string) : Segment :=
  {| start := start seg; duration := duration seg; text := line_text line |}.

(** The part of [translate_chunk] after the call: from the chunk and the
    translated text to the translated segments. *)
Definition pair_translation (segments : list Segment) (translated_text : string)
    : list Segment :=
  zip_with translated_segment segments
           (Py.split Py.nl_char (Py.strip translated_text)).

(** [translate_chunk] as the [n]-th call of a run: the call it made, and
    the translated segments unless an exception was raised. *)
Definition translate_chunk (cl : Client) (n : nat) (segments : list Segment)
    (target_lang episode_context : string)
    : list Event * option (list Segment) :=
  match translate_request segments target_lang episode_context with
  | None => ([], None)
  | Some req =>
      match cl n req with
      | None => ([Call req None], None)
      | Some translated_text =>
          ([Call req (Some translated_text)],
           Some (pair_translation segments translated_text))
      end
  end.

(** The loop of [main] over [enumerate(chunks)], on [all_translated] and
    the steps so far. *)
Fixpoint translate_chunks (cl : Client) (target_lang episode_context : string)
    (total_chunks : Z) (i : nat) (chunks : list (list Segment))
    (all_translated : list Segment) (steps : list Event)
    : (list Segment * list Event) + list Event :=
  match chunks with
  | [] => inl (all_translated, steps)
  | chunk :: rest =>
      let progress :=
        Print ("  Chunk " +:+ Py.str_int (Z.of_nat i + 1) +:+ "/"
               +:+ Py.str_int total_chunks +:+ " ("
               +:+ Py.str_int (Z.of_nat (length chunk)) +:+ " segments)...") in
      match translate_chunk cl i chunk target_lang episode_context with
      | (evs, None) => inr (steps ++ [progress] ++ evs)
      | (evs, Some translated) =>
          translate_chunks cl target_lang episode_context total_chunks (S i) rest
            (all_translated ++ translated)
            (steps ++ [progress] ++ evs ++ [Print "done"])
      end
  end.

(** [meta.get(key, default)] as an f-string renders it. *)
Definition meta_get (meta : gmap string PyVal) (key default : string) : string :=
  match meta !! key with
  | Some v => py_str v
  | None => default
  end.

(** The local [episode_context] of [main]. *)
Definition episode_context (episode_num : string)
    (meta : option (gmap string PyVal)) : string :=
  match meta with
  | None => "Episode " +:+ episode_num
  | Some m =>
      let base := "Episode " +:+ meta_get m "number" episode_num +:+ ": "
                  +:+ meta_get m "title" EmptyString in
      match m !! "description" with
      | Some d => if py_truthy d then base +:+ " - " +:+ py_str d else base
      | None => base
      end
  end.

Definition usage : string :=
  "Usage: python translate.py <episode_number> [--target es]".

Definition main (w : World) : Outcome :=
  match argv w !! 1%nat with
  | None => {| trace := [Print usage]; exit := SysExit 1 |}
  | Some episode_num =>
      let target_lang := flag_value (argv w) "--target" "es" in
      let episode_dir :=
        path_join [project_root w; "content"; "episodes"; episode_num] in
      let source_path := path_join [episode_dir; "transcript.en.json"] in
      match transcripts w !! source_path with
      | None =>
          {| trace := [Print ("Error: No English transcript found at "
                              +:+ source_path);
                       Print "Run fetch-transcript.py first."];
             exit := SysExit 1 |}
      | Some segments =>
          let meta_path := path_join [episode_dir; "meta.json"] in
          let context := episode_context episode_num (metas w !! meta_path) in
          if negb (api_key w) then
            {| trace := [Print "Error: ANTHROPIC_API_KEY not found.";
                         Print "Set it in .env.local or as an environment variable."];
               exit := SysExit 1 |}
          else
            let t1 :=
              [Print ("Translating Episode " +:+ episode_num +:+ " to "
                      +:+ target_lang);
               Print ("  Source: " +:+ Py.str_int (Z.of_nat (length segments))
                      +:+ " segments")] in
            match chunk_segments segments default_max_segments with
            | None => {| trace := t1; exit := Raised |}
            | Some chunks =>
                let t2 := t1 ++
                  [Print ("  Processing " +:+ Py.str_int (Z.of_nat (length chunks))
                          +:+ " chunks...")] in
                match translate_chunks (client w) target_lang context
                        (Z.of_nat (length chunks)) 0 chunks [] t2 with
                | inr t => {| trace := t; exit := Raised |}
                | inl (all_translated, t3) =>
                    let json_path :=
                      path_join [episode_dir;
                                 "transcript." +:+ target_lang +:+ ".json"] in
                    let md_path :=
                      path_join [episode_dir;
                                 "transcript." +:+ target_lang +:+ ".md"] in
                    let t4 := t3 ++ [WriteJson json_path all_translated;
                                     Print ("  Saved JSON: " +:+ json_path)] in
                    match markdown all_translated with
                    | None => {| trace := t4; exit := Raised |}
                    | Some md =>
                        {| trace := t4 ++ [WriteFile md_path md;
                                           Print ("  Saved Markdown: " +:+ md_path);
                                           Print "Done!"];
                           exit := Returned |}
                    end
                end
            end
      end
  end.

End Translate.

(** ** [load_env], the same in [edit-transcript.py] and [translate.py] *)

Module Env.

Definition api_key_name : string := "ANTHROPIC_API_KEY".

(** The lines [for line in f] goes through, without their line ends: the
    pieces between newlines of the text of the file, as text mode reads
    it (decoded, every line end read as a newline).  (The piece after a
    last newline is empty, and the loop skips empty lines.) *)
Definition file_lines (text : string) : list string :=
  Py.split Py.nl_char text.

(** The body of the loop up to the assignment: the stripped key and
    value of a line, or [None] for a line the [if] skips. *)
Definition parse_line (raw : string) : option (string * string) :=
  let line := Py.strip raw in
  if Py.truthy_str line && negb (String.prefix "#" line) && Py.contains "=" line
  then match Py.split1 "=" line with
       | [key; value] => Some (Py.strip key, Py.strip value)
       | _ => None
       end
  else None.

(** A string with a NUL character in it. *)
Definition has_nul (s : string) : bool :=
  Py.contains (String Ascii.zero EmptyString) s.

(** [os.environ[key] = value]: it raises ([None]) for an empty name
    ([OSError]), for a name with ["="] in it and for a NUL in the name or
    the value ([ValueError]). *)
Definition setenv (environ : gmap string string) (key value : string)
    : option (gmap string string) :=
  if negb (Py.truthy_str key) || Py.contains "=" key
     || has_nul key || has_nul value
  then None
  else Some (<[key := value]> environ).

(** One iteration of the loop on the environment; [None] once an
    assignment has raised. *)
Definition load_line (acc : option (gmap string string)) (raw : string)
    : option (gmap string string) :=
  environ ← acc;
  match parse_line raw with
  | Some (key, value) => setenv environ key value
  | None => Some environ
  end.

(** [load_env] on the environment and the text of [.env.local], if the
    file exists. *)
Definition load_env (environ : gmap string string) (env_file : option string)
    : option (gmap string string) :=
  if bool_decide (is_Some (environ !! api_key_name)) then Some environ
  else match env_file with
       | None => Some environ
       | Some text => fold_left load_line (file_lines text) (Some environ)
       end.

End Env.

(** ** [main] of [fetch-transcript.py] *)

Module Acquire.

(** A source of transcripts, [fetch_with_api] or [fetch_with_ytdlp] as
    [main] sees it: the lines it prints and what it returns for a video;
    both catch their exceptions and return [None]. *)
Definition Source := string → list string * option (list Segment).

Record World := mkWorld {
  argv : list string;
  project_root : string;
  fetch_with_api : Source;
  fetch_with_ytdlp : Source
}.

(** The steps of a run: the directory made, the sources asked, and what
    is printed and written. *)
Inductive Step :=
  | Makedirs (path : string)
  | AskApi (video_id : string)
  | AskYtdlp (video_id : string)
  | Emit (e : Event).

Record Run := mkRun {
  steps : list Step;
  status : Exit
}.

(** The truth value of [segments : list | None]. *)
Definition got (segments : option (list Segment)) : bool :=
  match segments with
  | Some (_ :: _) => true
  | _ => false
  end.

Definition prints (lines : list string) : list Step :=
  map (λ l, Emit (Print l)) lines.

Definition usage : string :=
  "Usage: python fetch-transcript.py <youtube_id> <episode_number>".

Definition main (w : World) : Run :=
  match argv w !! 1%nat, argv w !! 2%nat with
  | Some video_id, Some episode_num =>
      let episode_dir :=
        path_join [project_root w; "content"; "episodes"; episode_num] in
      let t0 :=
        [Makedirs episode_dir;
         Emit (Print ("Fetching transcript for Episode " +:+ episode_num
                      +:+ " (YouTube: " +:+ video_id +:+ ")"));
         Emit (Print "  Trying youtube-transcript-api...");
         AskApi video_id] in
      let '(out1, first) := fetch_with_api w video_id in
      let t1 := t0 ++ prints out1 in
      let '(t2, segments) :=
        if got first then (t1, first)
        else
          let '(out2, second) := fetch_with_ytdlp w video_id in
          (t1 ++ [Emit (Print "  Trying yt-dlp fallback..."); AskYtdlp video_id]
              ++ prints out2, second) in
      match segments with
      | Some ((_ :: _) as raw) =>
          let merged :=
            Fetch.merge_into_paragraphs raw Fetch.default_target_duration
              Fetch.default_pause_threshold in
          let t3 := t2 ++
            [Emit (Print ("  Raw segments: "
                          +:+ Py.str_int (Z.of_nat (length raw))));
             Emit (Print ("  After merging: "
                          +:+ Py.str_int (Z.of_nat (length merged))
                          +:+ " segments"))] in
          let total :=
            match last merged with
            | Some l =>
                match format_time (PrimFloat.add (start l) (duration l)) with
                | Some stamp => Some [Emit (Print ("  Total duration: " +:+ stamp))]
                | None => None
                end
            | None => Some []
            end in
          match total with
          | None => {| steps := t3; status := Raised |}
          | Some t4 =>
              let saved := Fetch.save_transcript merged episode_dir in
              let t5 := t3 ++ t4 ++ map Emit (trace saved) in
              match exit saved with
              | Returned =>
                  {| steps := t5 ++ [Emit (Print "Done!")]; status := Returned |}
              | e => {| steps := t5; status := e |}
              end
          end
      | _ =>
          {| steps := t2 ++
               [Emit (Print "  ERROR: Could not fetch transcript from any source.")];
             status := SysExit 1 |}
      end
  | _, _ => {| steps := [Emit (Print usage)]; status := SysExit 1 |}
  end.

End Acquire.

(** * Vocabulary of the properties *)

Module Spec.

Import Fetch.
Local Open Scope float_scope.

(** Three raw segments that add up to 12.0 seconds, then a gap of 2.0. *)
Definition pause_example : list Segment :=
  [ {| start := 0; duration := 4; text := "a" |};
    {| start := 4; duration := 4; text := "b" |};
    {| start := 8; duration := 4; text := "c" |};
    {| start := 14; duration := 3; text := "d" |} ].

(** Two time-ordered segments, to two decimals as the acquisition step
    rounds them, that the merger joins. *)
Definition rounding_example : list Segment :=
  [ {| start := 0.24; duration := 2.5; text := "a" |};
    {| start := 3.24; duration := 0.4; text := "b" |} ].

(** What one merged segment is, given the run of input segments it was
    made of: it starts where the first one starts, its text is their
    texts joined by spaces, and its duration is that of the first one when
    it is alone and else the float [(l.start + l.duration) - first.start]
    for the last one [l]. *)
Definition merged_from (g : list Segment) (m : Segment) : Prop :=
  ∃ (first : Segment) (rest : list Segment),
    g = first :: rest ∧
    start m = start first ∧
    text m = Py.join " " (map text g) ∧
    duration m = match last rest with
                 | None => duration first
                 | Some l => (start l + duration l) - start first
                 end.

(** The string the loop of [edit-transcript.py] carries after the
    fragments [fragments] have been received: for each fragment in order,
    its extracted titles and a newline. *)
Definition carried (fragments : list string) : string :=
  fold_left (λ acc html, acc +:+ Edit.extract_section_titles html +:+ Py.nl)
            fragments EmptyString.

(** The non-empty lines of a text: the title entries of a carried
    string, the segment lines of a Markdown rendering. *)
Definition nonempty_lines (s : string) : list string :=
  List.filter Py.truthy_str (Py.split Py.nl_char s).

(** A string without a newline in it. *)
Fixpoint one_line (s : string) : Prop :=
  match s with
  | EmptyString => True
  | String c s' => c ≠ Py.nl_char ∧ one_line s'
  end.

(** What holds of the calls of a trace [t] of the editing loop over
    [chunks]: the [i]-th request is the one built for chunk [i] from the
    titles of the answers before it, and the [i]-th answer is the
    service's answer to the [i]-th request. *)
Definition causal (cl : Client) (meta : gmap string PyVal) (lang : string)
    (reference_html : option string) (total_chunks : Z)
    (chunks : list (list Segment)) (t : list Event) : Prop :=
  (∀ (i : nat) (req : Request),
     requests t !! i = Some req →
     ∃ chunk,
       chunks !! i = Some chunk
       ∧ Edit.edit_request chunk meta lang reference_html (Z.of_nat i)
           total_chunks (carried (take i (responses t))) = Some req)
  ∧ (∀ (i : nat) (answer : string),
       responses t !! i = Some answer →
       ∃ req, requests t !! i = Some req ∧ cl i req = Some answer).

(** The line of the Markdown file for a segment, given its timestamp. *)
Definition md_line (seg : Segment) (stamp : string) : string :=
  "**[" +:+ stamp +:+ "]** " +:+ text seg.

(** [stamp] is the timestamp of [seconds]: hours, minutes and seconds of
    the whole seconds, as [H:MM:SS] when the hours are positive and as
    [M:SS] otherwise, the fields after the first on two digits. *)
Definition stamp_of (seconds : float) (stamp : string) : Prop :=
  ∃ fl : Z,
    Py.floor_float seconds = Some fl
    ∧ let h := (fl / 3600)%Z in
      let m := ((fl mod 3600) / 60)%Z in
      let s := (fl mod 60)%Z in
      stamp = (if (0 <? h)%Z
               then Py.str_int h +:+ ":" +:+ Py.fmt_02d m +:+ ":" +:+ Py.fmt_02d s
               else Py.str_int m +:+ ":" +:+ Py.fmt_02d s)
      ∧ (0 ≤ m < 60)%Z ∧ (0 ≤ s < 60)%Z
      ∧ String.length (Py.fmt_02d m) = 2%nat
      ∧ String.length (Py.fmt_02d s) = 2%nat.

(** A number of seconds from 0 up to 2^53, the range on which the float
    operations of [format_time] are exact. *)
Definition stamp_range (seconds : float) : bool :=
  PrimFloat.leb 0 seconds && PrimFloat.ltb seconds 9007199254740992.

(** A segment whose text has a newline in it. *)
Definition two_line_segment : Segment :=
  {| start := 0; duration := 1; text := "a" +:+ Py.nl +:+ "b" |}.

(** Three segments and a translation of two lines. *)
Definition short_translation_example : list Segment :=
  [ {| start := 0; duration := 4; text := "one" |};
    {| start := 4; duration := 4; text := "two" |};
    {| start := 8; duration := 4; text := "three" |} ].

(** The no-break space U+00A0 as its two bytes C2 A0: a whitespace
    character for [strip] that is not an ASCII one. *)
Definition nbsp : string :=
  String (ascii_of_nat 194) (String (ascii_of_nat 160) EmptyString).

(** The directory of an episode and the path of its metadata file, as
    both [main] functions build them. *)
Definition episode_dir (w : World) (episode_num : string) : string :=
  path_join [project_root w; "content"; "episodes"; episode_num].

Definition meta_path (w : World) (episode_num : string) : string :=
  path_join [episode_dir w episode_num; "meta.json"].

(** The world [w] with other metadata files. *)
Definition with_metas (w : World) (ms : gmap string (gmap string PyVal)) : World :=
  {| argv := argv w; project_root := project_root w;
     transcripts := transcripts w; metas := ms; htmls := htmls w;
     api_key := api_key w; client := client w |}.

(** A segment whose start is a finite number, so that [format_time]
    returns on it. *)
Definition finite_start (seg : Segment) : Prop :=
  is_Some (Py.floor_float (start seg)).

(** A service that answers every call. *)
Definition answers (cl : Client) : Prop := ∀ n req, is_Some (cl n req).

(** Two worlds for episode 66: one without any file, and one with the
    Spanish and English transcripts but no metadata, a key, and a service
    that answers every request with the same text. *)
Definition empty_world : World :=
  {| argv := ["main.py"; "66"]; project_root := "/p";
     transcripts := ∅; metas := ∅; htmls := ∅;
     api_key := true; client := λ _ _, Some "<h2>Intro</h2>" |}.

Definition no_meta_world : World :=
  {| argv := ["main.py"; "66"]; project_root := "/p";
     transcripts :=
       {[ "/p/content/episodes/66/transcript.es.json" := pause_example;
          "/p/content/episodes/66/transcript.en.json" := pause_example ]};
     metas := ∅; htmls := ∅;
     api_key := true; client := λ _ _, Some "<h2>Intro</h2>" |}.

(** The chunks as the loop produces them, on natural numbers: chunk [k]
    is the [m] elements from position [k * m]. *)
Definition chunk_at {A} (m : nat) (l : list A) (k : nat) : list A :=
  take m (drop (k * m) l).

(** The length of [range(0, n, m)] for a positive step. *)
Definition range_len (n m : Z) : Z :=
  (if 0 <? n then (n - 1) / m + 1 else 0)%Z.

(** What the loop keeps true: the store only grew behind [h], the object
    [current] was allocated by the function, and so were the objects of
    [merged], all before [current]. *)
Record loop_inv (h : store) (merged : list loc) (current : loc) (hc : store)
    (mvals : list Segment) (cval : Segment) : Prop := {
  inv_prefix : h `prefix_of` hc;
  inv_fresh : (length h ≤ current)%nat;
  inv_current : hc !! current = Some cval;
  inv_older : Forall (λ m, (length h ≤ m < current)%nat) merged;
  inv_merged : Forall2 (λ r s, hc !! r = Some s) merged mvals
}.

(** What the loop keeps true before chunk [length done]. *)
Record carrier_inv (cl : Client) (meta : gmap string PyVal) (lang : string)
    (reference_html : option string) (total_chunks : Z)
    (done : list (list Segment)) (st : Edit.Carrier) : Prop := {
  cinv_requests : length (requests (Edit.steps st)) = length done;
  cinv_responses : length (responses (Edit.steps st)) = length done;
  cinv_previous :
    Edit.previous_sections st = carried (responses (Edit.steps st));
  cinv_parts : Edit.all_html_parts st = responses (Edit.steps st);
  cinv_causal :
    causal cl meta lang reference_html total_chunks done (Edit.steps st)
}.

(** Every segment of [l] but the last is followed by a boundary: the
    merger, standing at it, would close it at the next one. *)
Fixpoint all_boundaries (target_duration pause_threshold : float)
    (l : list Segment) : bool :=
  match l with
  | a :: ((b :: _) as tl) =>
      should_break target_duration pause_threshold a b
      && all_boundaries target_duration pause_threshold tl
  | _ => true
  end.

(** A paragraph long enough to be closed: at least 10 seconds, or at
    least the target. *)
Definition long_enough (target_duration : float) (m : Segment) : bool :=
  PrimFloat.leb 10 (duration m) || PrimFloat.leb target_duration (duration m).

(** The character [c] occurs in [s]. *)
Fixpoint has_char (c : ascii) (s : string) : bool :=
  match s with
  | EmptyString => false
  | String a s' => Ascii.eqb a c || has_char c s'
  end.

(** The header of the context instruction, on its line. *)
Definition titles_header : string :=
  "Here are the section titles already generated in previous chunks "
  +:+ "(do NOT repeat these, create new section titles):".

(** The files a trace wrote. *)
Definition is_write (e : Event) : bool :=
  match e with
  | WriteFile _ _ | WriteJson _ _ => true
  | _ => false
  end.

Definition writes (t : list Event) : list Event := List.filter is_write t.

(** The time code of a segment: where it starts and how long it lasts. *)
Definition time_code (s : Segment) : float * float := (start s, duration s).

(** The assignments a text of [.env.local] makes, in order. *)
Definition assignments (text : string) : list (string * string) :=
  omap Env.parse_line (Env.file_lines text).

(** The value the last assignment to [key] gives it, if there is one. *)
Fixpoint last_value (key : string) (assigns : list (string * string))
    : option string :=
  match assigns with
  | [] => None
  | (k, v) :: tl =>
      match last_value key tl with
      | Some v' => Some v'
      | None => if String.eqb k key then Some v else None
      end
  end.

(** An assignment [os.environ] accepts. *)
Definition settable (kv : string * string) : Prop :=
  Py.truthy_str kv.1 = true ∧ Py.contains "=" kv.1 = false
  ∧ Env.has_nul kv.1 = false ∧ Env.has_nul kv.2 = false.

(** The directory of an episode for the acquisition script. *)
Definition episode_dir_of (w : Acquire.World) (episode_num : string) : string :=
  path_join [Acquire.project_root w; "content"; "episodes"; episode_num].

(** What a run of the acquisition script printed and wrote, and whether
    it asked the fallback source. *)
Definition emitted (t : list Acquire.Step) : list Event :=
  omap (λ s, match s with Acquire.Emit e => Some e | _ => None end) t.

Definition is_fallback (s : Acquire.Step) : bool :=
  match s with Acquire.AskYtdlp _ => true | _ => false end.

Definition fallback_asked (t : list Acquire.Step) : bool :=
  existsb is_fallback t.

End Spec.

(** * Properties *)

(** ** Strings *)

Lemma string_app_assoc (a b c : string) : (a +:+ b) +:+ c = a +:+ (b +:+ c).
Proof.
  induction a as [|x a IH]; [done|].
  change (String x ((a +:+ b) +:+ c) = String x (a +:+ (b +:+ c))).
  by rewrite IH.
Qed.

Lemma string_app_nil_r (a : string) : a +:+ EmptyString = a.
Proof.
  induction a as [|x a IH]; [done|].
  change (String x (a +:+ EmptyString) = String x a).
  by rewrite IH.
Qed.

Lemma split_not_nil (sep : ascii) (s : string) : Py.split sep s ≠ [].
Proof.
  destruct s as [|c s]; [done|]. cbn.
  destruct (Ascii.eqb c sep); [done|]. by destruct (Py.split sep s).
Qed.

(** Splitting at the first newline. *)
Lemma split_one_line_app (a b : string) :
  Spec.one_line a →
  Py.split Py.nl_char (a +:+ Py.nl +:+ b) = a :: Py.split Py.nl_char b.
Proof.
  induction a as [|c a IH]; intros Ha.
  - reflexivity.
  - destruct Ha as [Hc Ha].
    change (String c a +:+ Py.nl +:+ b) with (String c (a +:+ Py.nl +:+ b)).
    cbn [Py.split]. rewrite (proj2 (Ascii.eqb_neq c Py.nl_char) Hc).
    by rewrite IH.
Qed.

Lemma split_blank_line (b : string) :
  Py.split Py.nl_char (Py.nl +:+ b) = EmptyString :: Py.split Py.nl_char b.
Proof. exact (split_one_line_app EmptyString b I). Qed.

Lemma split_lines_one_line (s : string) :
  Forall Spec.one_line (Py.split Py.nl_char s).
Proof.
  induction s as [|c s IH]; [by repeat constructor|].
  cbn [Py.split]. destruct (Ascii.eqb_spec c Py.nl_char) as [->|Hc].
  - by constructor.
  - destruct (Py.split Py.nl_char s) as [|w ws]; [by repeat constructor|].
    apply Forall_cons in IH as [Hw Hws]. by constructor.
Qed.

Lemma one_line_app (a b : string) :
  Spec.one_line a → Spec.one_line b → Spec.one_line (a +:+ b).
Proof.
  induction a as [|c a IH]; [done|]. intros [Hc Ha] Hb.
  change (String c a +:+ b) with (String c (a +:+ b)). split; [done|by apply IH].
Qed.

Lemma one_line_substring (s : string) :
  Spec.one_line s → ∀ i n, Spec.one_line (String.substring i n s).
Proof.
  induction s as [|c s IH]; intros Hs i n.
  - by destruct i, n.
  - destruct Hs as [Hc Hs]. destruct i as [|i]; [destruct n as [|n]|].
    + done.
    + cbn. split; [done|]. apply IH, Hs.
    + cbn. apply IH, Hs.
Qed.

(** ** Strings: prefixes, occurrences, lines *)

Section StringFacts.

Import Spec.

Lemma prefix_nil (s : string) : String.prefix EmptyString s = true.
Proof. by destruct s. Qed.

Lemma prefix_app (p s : string) : String.prefix p (p +:+ s) = true.
Proof.
  induction p as [|c p IH]; [apply prefix_nil|].
  change (String c p +:+ s) with (String c (p +:+ s)). cbn [String.prefix].
  destruct (Ascii.ascii_dec c c); [exact IH|done].
Qed.

Lemma find_unfold (sub s : string) :
  Py.find sub s
  = if String.prefix sub s then Some 0%nat
    else match s with
         | EmptyString => None
         | String _ s' => S <$> Py.find sub s'
         end.
Proof. by destruct s. Qed.

Lemma find_here (sub s : string) : Py.find sub (sub +:+ s) = Some 0%nat.
Proof. by rewrite find_unfold, prefix_app. Qed.

Lemma prefix_cut (p s : string) :
  String.prefix p s = true → ∃ b, s = p +:+ b.
Proof.
  revert s. induction p as [|c p IH]; intros s; [by exists s|].
  destruct s as [|x s]; [done|]. cbn [String.prefix].
  destruct (Ascii.ascii_dec c x) as [->|_]; [|done].
  intros Hp. destruct (IH s Hp) as [b ->]. by exists b.
Qed.

(** [find] succeeds exactly on the strings its argument occurs in. *)
Lemma find_Some_cut (sub s : string) :
  is_Some (Py.find sub s) → ∃ a b, s = a +:+ sub +:+ b.
Proof.
  induction s as [|x s IH]; rewrite find_unfold.
  - destruct (String.prefix sub EmptyString) eqn:Hp; [|by intros [? ?]].
    intros _. destruct (prefix_cut _ _ Hp) as [b Hb]. by exists EmptyString, b.
  - destruct (String.prefix sub (String x s)) eqn:Hp.
    + intros _. destruct (prefix_cut _ _ Hp) as [b Hb]. by exists EmptyString, b.
    + rewrite fmap_is_Some. intros Hs. destruct (IH Hs) as (a & b & ->).
      by exists (String x a), b.
Qed.

Lemma find_occurs (a sub b : string) : is_Some (Py.find sub (a +:+ sub +:+ b)).
Proof.
  induction a as [|x a IH].
  - change (EmptyString +:+ sub +:+ b) with (sub +:+ b).
    rewrite find_here. by eexists.
  - change (String x a +:+ sub +:+ b) with (String x (a +:+ sub +:+ b)).
    rewrite find_unfold. destruct (String.prefix _ _); [by eexists|].
    by rewrite fmap_is_Some.
Qed.

(** A line of a text is a part of it. *)
Lemma split_head_cut (sep : ascii) (s w : string) (ws : list string) :
  Py.split sep s = w :: ws → ∃ y, s = w +:+ y.
Proof.
  revert w ws. induction s as [|x s IH]; intros w ws.
  - intros [= <- <-]. by exists EmptyString.
  - cbn [Py.split]. destruct (Ascii.eqb x sep).
    + intros [= <- _]. by eexists.
    + destruct (Py.split sep s) as [|w' ws'] eqn:Hs; intros [= <- <-].
      * by exists s.
      * destruct (IH w' ws' eq_refl) as [y ->]. by exists y.
Qed.

Lemma split_elem_cut (sep : ascii) (s line : string) :
  line ∈ Py.split sep s → ∃ x y, s = x +:+ line +:+ y.
Proof.
  revert line. induction s as [|c s IH]; intros line.
  - cbn. intros ->%list_elem_of_singleton. by exists EmptyString, EmptyString.
  - cbn [Py.split]. destruct (Ascii.eqb c sep).
    + intros [->|Hin]%elem_of_cons.
      * by exists EmptyString, (String c s).
      * destruct (IH line Hin) as (x & y & ->). by exists (String c x), y.
    + destruct (Py.split sep s) as [|w ws] eqn:Hs.
      * intros ->%list_elem_of_singleton. by exists EmptyString, s.
      * intros [->|Hin]%elem_of_cons.
        -- destruct (split_head_cut sep s w ws Hs) as [y ->].
           by exists EmptyString, y.
        -- destruct (IH line) as (x & y & ->); [by right|].
           by exists (String c x), y.
Qed.

Lemma one_line_has_char (s : string) :
  has_char Py.nl_char s = false → one_line s.
Proof.
  induction s as [|c s IH]; [done|]. cbn [has_char one_line].
  intros H. apply orb_false_iff in H as [Hc Hs].
  split; [by apply Ascii.eqb_neq|by apply IH].
Qed.

Lemma truthy_app_nl (a b : string) :
  Py.truthy_str (a +:+ Py.nl +:+ b) = true.
Proof. by destruct a. Qed.

End StringFacts.

(** ** The segment merger *)

Section MergeFacts.

Import Fetch.
Local Open Scope float_scope.

Variables target_duration pause_threshold : float.

Local Abbreviation step := (merge_step target_duration pause_threshold).
Local Abbreviation merge l :=
  (merge_into_paragraphs l target_duration pause_threshold).

(** The list [merged] only grows at its end: a run started with a
    non-empty [merged] is the run started with an empty one, prefixed. *)
Lemma fold_merge_step_prefix (rest : list Segment) (merged : list Segment)
    (current : Segment) :
  fold_left step rest (merged, current) =
  (merged ++ fst (fold_left step rest ([], current)),
   snd (fold_left step rest ([], current))).
Proof.
  revert merged current.
  induction rest as [|seg rest IH]; intros merged current; cbn [fold_left].
  - by rewrite app_nil_r.
  - assert (Hs : ∀ m, step (m, current) seg =
              if should_break target_duration pause_threshold current seg
              then (m ++ [current], seg) else (m, extend current seg))
      by reflexivity.
    rewrite !Hs.
    destruct (should_break _ _ current seg).
    + rewrite (IH (merged ++ [current])), (IH ([] ++ [current])).
      simpl. by rewrite <- app_assoc.
    + rewrite (IH merged), (IH []). done.
Qed.

(** The loop as a recursion on the input: the head is the accumulator. *)
Lemma merge_cons_cons (current seg : Segment) (rest : list Segment) :
  merge (current :: seg :: rest) =
  if should_break target_duration pause_threshold current seg
  then current :: merge (seg :: rest)
  else merge (extend current seg :: rest).
Proof.
  unfold merge_into_paragraphs. cbn [fold_left].
  assert (Hs : step ([], current) seg =
            if should_break target_duration pause_threshold current seg
            then ([current], seg) else ([], extend current seg))
    by reflexivity.
  rewrite Hs.
  destruct (should_break _ _ current seg).
  - rewrite fold_merge_step_prefix. simpl.
    destruct (fold_left step rest ([], seg)) as [m c]. done.
  - done.
Qed.

Lemma merge_singleton (s : Segment) : merge [s] = [s].
Proof. reflexivity. Qed.

(** A group grows by one segment as the accumulator is extended. *)
Lemma merge_group_snoc (first : Segment) (rest : list Segment) (seg : Segment) :
  merge_group first (rest ++ [seg]) = extend (merge_group first rest) seg.
Proof. unfold merge_group. by rewrite fold_left_app. Qed.

Lemma merge_group_start (first : Segment) (rest : list Segment) :
  start (merge_group first rest) = start first.
Proof.
  induction rest as [|seg rest IH] using rev_ind; [done|].
  by rewrite merge_group_snoc.
Qed.

Lemma join_snoc (sep : string) (l : list string) (x y : string) :
  Py.join sep ((x :: l) ++ [y]) = Py.join sep (x :: l) +:+ sep +:+ y.
Proof.
  revert x. induction l as [|z l IH]; intros x; [done|].
  change (Py.join sep ((x :: z :: l) ++ [y]))
    with (x +:+ sep +:+ Py.join sep ((z :: l) ++ [y])).
  rewrite IH.
  change (Py.join sep (x :: z :: l)) with (x +:+ sep +:+ Py.join sep (z :: l)).
  by rewrite !string_app_assoc.
Qed.

Lemma merge_group_text (first : Segment) (rest : list Segment) :
  text (merge_group first rest) = Py.join " " (map text (first :: rest)).
Proof.
  induction rest as [|seg rest IH] using rev_ind; [done|].
  rewrite merge_group_snoc. cbn [extend text].
  rewrite IH. cbn [map]. rewrite map_app.
  apply eq_sym, (join_snoc " " (map text rest)).
Qed.

Lemma merge_group_duration (first : Segment) (rest : list Segment) :
  duration (merge_group first rest) =
  match last rest with
  | None => duration first
  | Some l => (start l + duration l) - start first
  end.
Proof.
  destruct rest as [|seg rest _] using rev_ind; [done|].
  rewrite merge_group_snoc, last_snoc. cbn [extend duration].
  by rewrite merge_group_start.
Qed.

(** The output of the merger is made of groups of consecutive input
    segments: from an accumulator that has consumed [first :: pre], the
    loop consumes some more segments [tl] into it and splits what is left
    into groups. *)
Lemma merge_groups_from (rest : list Segment) :
  ∀ (first : Segment) (pre : list Segment),
    ∃ (tl : list Segment) (groups : list (list Segment)),
      rest = tl ++ concat groups ∧
      Forall2 (λ g m, group_segment g = Some m) groups
        (List.tl (merge (merge_group first pre :: rest))) ∧
      hd_error (merge (merge_group first pre :: rest)) =
        Some (merge_group first (pre ++ tl)).
Proof.
  induction rest as [|seg rest IH]; intros first pre.
  - exists [], []. rewrite merge_singleton.
    split; [done|]. split; [apply List.Forall2_nil|].
    by rewrite app_nil_r.
  - rewrite merge_cons_cons.
    destruct (should_break _ _ (merge_group first pre) seg).
    + destruct (IH seg []) as (tl & groups & Hrest & Hgroups & Hhd).
      change (merge_group seg []) with seg in *.
      exists [], ((seg :: tl) :: groups). rewrite app_nil_r.
      split; [by rewrite Hrest|]. split; [|done].
      cbn [List.tl].
      destruct (merge (seg :: rest)) as [|m ms]; [done|].
      cbn in Hhd, Hgroups. injection Hhd as ->.
      by constructor.
    + rewrite <- merge_group_snoc.
      destruct (IH first (pre ++ [seg])) as (tl & groups & Hrest & Hgroups & Hhd).
      exists (seg :: tl), groups.
      split; [by rewrite Hrest|]. split; [done|].
      by rewrite Hhd, <- app_assoc.
Qed.

End MergeFacts.

Section MergeClaims.

Import Fetch Spec.
Local Open Scope float_scope.

(** C3. The merger closes the accumulator at a segment exactly when the
    gap to it exceeds [pause_threshold] after at least 10 seconds, or the
    accumulator has reached [target_duration]; otherwise it merges the
    segment in: the accumulator keeps its start, its text gets a space and
    the text of the segment, and its duration becomes
    [(seg.start + seg.duration) - current.start].  The accumulator left at
    the end of the input is emitted.  With a threshold of 1.5 the merger
    splits at a gap of 2.0 after 12.0 seconds, and with a target of 30.0
    it splits once the accumulator has 30.0 seconds, whatever the gap. *)
Theorem merge_boundary_rule (target_duration pause_threshold : float)
    (current seg : Segment) (rest : list Segment) :
  let gap := start seg - (start current + duration current) in
  let closes :=
    (PrimFloat.ltb pause_threshold gap && PrimFloat.leb 10 (duration current))
    || PrimFloat.leb target_duration (duration current) in
  let merged_in :=
    {| start := start current;
       duration := (start seg + duration seg) - start current;
       text := text current +:+ " " +:+ text seg |} in
  merge_into_paragraphs (current :: seg :: rest) target_duration pause_threshold =
    (if closes
     then current :: merge_into_paragraphs (seg :: rest) target_duration pause_threshold
     else merge_into_paragraphs (merged_in :: rest) target_duration pause_threshold)
  ∧ merge_into_paragraphs [current] target_duration pause_threshold = [current]
  ∧ merge_into_paragraphs [current; seg] target_duration pause_threshold =
    (if closes then [current; seg] else [merged_in])
  ∧ (duration current = 12 → gap = 2 →
     merge_into_paragraphs (current :: seg :: rest) target_duration 1.5 =
     current :: merge_into_paragraphs (seg :: rest) target_duration 1.5)
  ∧ (PrimFloat.leb 30 (duration current) = true →
     merge_into_paragraphs (current :: seg :: rest) 30 pause_threshold =
     current :: merge_into_paragraphs (seg :: rest) 30 pause_threshold).
Proof.
  intros gap closes merged_in. repeat split.
  - apply merge_cons_cons.
  - rewrite merge_cons_cons. unfold should_break. fold gap closes.
    by destruct closes.
  - intros Hlen Hgap. rewrite merge_cons_cons. unfold should_break.
    fold gap. rewrite Hgap, Hlen. reflexivity.
  - intros Hlen. rewrite merge_cons_cons. unfold should_break.
    rewrite Hlen. by rewrite orb_true_r.
Qed.

Example pause_example_merged :
  merge_into_paragraphs pause_example 30 1.5 =
  [ {| start := 0; duration := 12; text := "a b c" |};
    {| start := 14; duration := 3; text := "d" |} ].
Proof. vm_compute. reflexivity. Qed.

Lemma merge_boundary_rule_witness :
  let acc := {| start := 0; duration := 12; text := "a b c" |} in
  let long := {| start := 0; duration := 31.5; text := "a b c" |} in
  let short := {| start := 0; duration := 4; text := "a" |} in
  let near := {| start := 6; duration := 3.5; text := "b" |} in
  let next := {| start := 14; duration := 3; text := "d" |} in
  merge_into_paragraphs [acc; next] 30 1.5 = [acc; next]
  ∧ merge_into_paragraphs [long; next] 30 1.5 = [long; next]
  ∧ merge_into_paragraphs [short; near] 30 1.5
    = [ {| start := 0; duration := 9.5; text := "a b" |} ]
  ∧ merge_into_paragraphs [short; near; next] 30 1.5
    = [ {| start := 0; duration := 17; text := "a b d" |} ].
Proof.
  intros acc long short near next. split; [|split; [|split]].
  - pose proof (merge_boundary_rule 30 1.5 acc next []) as H.
    cbv zeta in H. destruct H as (_ & _ & _ & H & _).
    apply H; reflexivity.
  - pose proof (merge_boundary_rule 30 1.5 long next []) as H.
    cbv zeta in H. destruct H as (_ & _ & _ & _ & H).
    apply H; reflexivity.
  - pose proof (merge_boundary_rule 30 1.5 short near []) as H.
    cbv zeta in H. destruct H as (_ & _ & H & _).
    rewrite H. vm_compute. reflexivity.
  - pose proof (merge_boundary_rule 30 1.5 short near [next]) as H.
    cbv zeta in H. destruct H as (H & _).
    rewrite H. vm_compute. reflexivity.
Defined.

(** The claim as written fails on floats: the last merged segment of
    [rounding_example] ends at 3.6400000000000006, the input at 3.64. *)
Lemma merge_end_rounding :
  time_ordered rounding_example = true
  ∧ ∃ l m,
      last rounding_example = Some l
      ∧ last (merge_into_paragraphs rounding_example 30 1.5) = Some m
      ∧ seg_end m ≠ seg_end l.
Proof.
  split; [vm_compute; reflexivity|].
  eexists _, _. split; [reflexivity|]. split; [vm_compute; reflexivity|].
  intros H. apply (f_equal (λ x, PrimFloat.eqb x 3.64)) in H.
  vm_compute in H. discriminate H.
Qed.

(** C4, as the code has it. The merged segments are made of consecutive
    runs of the input that leave nothing out and share nothing: each
    merged segment starts where its run starts, carries the texts of its
    run joined by spaces, and has the duration of its only segment or the
    float [(l.start + l.duration) - start] for the last segment [l] of
    its run. *)
Theorem merge_coverage (segments : list Segment)
    (target_duration pause_threshold : float) :
  ∃ groups : list (list Segment),
    concat groups = segments
    ∧ Forall2 merged_from groups
        (merge_into_paragraphs segments target_duration pause_threshold).
Proof.
  destruct segments as [|first rest].
  - exists []. split; [done|]. apply List.Forall2_nil.
  - destruct (merge_groups_from target_duration pause_threshold rest first [])
      as (tl & groups & Hrest & Hgroups & Hhd).
    change (merge_group first []) with first in *.
    exists ((first :: tl) :: groups). split; [by rewrite Hrest|].
    destruct (merge_into_paragraphs (first :: rest) _ _) as [|m ms]; [done|].
    change (Some m = Some (merge_group first tl)) in Hhd.
    change (Forall2 (λ g m, group_segment g = Some m) groups ms) in Hgroups.
    injection Hhd as ->.
    constructor.
    + exists first, tl. split; [done|].
      rewrite merge_group_start, merge_group_text, merge_group_duration. done.
    + eapply Forall2_impl; [exact Hgroups|].
      intros [|f r] m Hm; [done|]. injection Hm as <-.
      exists f, r. split; [done|].
      rewrite merge_group_start, merge_group_text, merge_group_duration. done.
Qed.

End MergeClaims.

(** ** The merger on a store: no input object is changed *)

Section MergeStore.

Import Fetch.

Variables target_duration pause_threshold : float.
Variable h : store.

Local Abbreviation loop_inv := (Spec.loop_inv h).

Lemma loop_inv_step merged current hc mvals cval r seg :
  loop_inv merged current hc mvals cval →
  h !! r = Some seg →
  ∃ merged' current' h',
    merge_step_store target_duration pause_threshold
      (Some (merged, current, hc)) r = Some (merged', current', h')
    ∧ loop_inv merged' current' h'
        (fst (merge_step target_duration pause_threshold (mvals, cval) seg))
        (snd (merge_step target_duration pause_threshold (mvals, cval) seg)).
Proof.
  intros [Hpre Hfresh Hcur Hold Hmerged] Hr.
  assert (Hr' : hc !! r = Some seg) by (by eapply prefix_lookup_Some).
  pose proof (lookup_lt_Some _ _ _ Hcur) as Hlt.
  unfold merge_step_store, merge_step, dict_copy. simpl.
  rewrite Hcur. simpl. rewrite Hr'. simpl.
  destruct (should_break _ _ cval seg).
  - eexists _, _, _. split; [reflexivity|]. cbn [fst snd].
    split.
    + by apply prefix_app_r.
    + lia.
    + by apply list_lookup_middle.
    + apply Forall_app. split.
      * eapply Forall_impl; [exact Hold|]. cbn. lia.
      * repeat constructor; lia.
    + apply Forall2_app.
      * eapply Forall2_impl; [exact Hmerged|].
        intros m s Hm. by apply lookup_app_l_Some.
      * repeat constructor. by apply lookup_app_l_Some.
  - eexists _, _, _. split; [reflexivity|]. cbn [fst snd].
    split.
    + destruct Hpre as [k ->].
      rewrite insert_app_r_alt by lia. by apply prefix_app_r.
    + done.
    + by apply list_lookup_insert_eq.
    + done.
    + clear Hcur Hlt. induction Hmerged as [|m s ms ss Hm _ IH]; [constructor|].
      apply Forall_cons in Hold as [Hm' Hold]. constructor; [|by apply IH].
      rewrite list_lookup_insert_ne by lia. done.
Qed.

Lemma loop_inv_fold (rest : list loc) (rsegs : list Segment) :
  Forall2 (λ r s, h !! r = Some s) rest rsegs →
  ∀ merged current hc mvals cval,
    loop_inv merged current hc mvals cval →
    ∃ merged' current' h',
      fold_left (merge_step_store target_duration pause_threshold) rest
        (Some (merged, current, hc)) = Some (merged', current', h')
      ∧ loop_inv merged' current' h'
          (fst (fold_left (merge_step target_duration pause_threshold) rsegs
                  (mvals, cval)))
          (snd (fold_left (merge_step target_duration pause_threshold) rsegs
                  (mvals, cval))).
Proof.
  induction 1 as [|r seg rest rsegs Hr _ IH]; intros merged current hc mvals cval Hinv.
  - by eexists _, _, _.
  - destruct (loop_inv_step _ _ _ _ _ _ _ Hinv Hr) as (m1 & c1 & h1 & Hstep & Hinv1).
    cbn [fold_left]. rewrite Hstep.
    destruct (merge_step _ _ (mvals, cval) seg) as [mv1 cv1].
    by apply IH.
Qed.

(** The function on the store computes [merge_into_paragraphs] of the
    values, in new objects, and leaves every object of [h] as it was. *)
Lemma merge_store_refines (refs : list loc) (segs : list Segment) :
  deref h refs = Some segs →
  ∃ out h',
    merge_into_paragraphs_store refs target_duration pause_threshold h
      = Some (out, h')
    ∧ deref h' out
      = Some (merge_into_paragraphs segs target_duration pause_threshold)
    ∧ (∀ r s, h !! r = Some s → h' !! r = Some s)
    ∧ Forall (λ r, (length h ≤ r)%nat) out.
Proof.
  unfold deref. intros Hrefs. apply mapM_Some in Hrefs.
  destruct Hrefs as [|first s0 rest rsegs Hfirst Hrest].
  - exists [], h. by repeat split.
  - unfold merge_into_paragraphs_store, dict_copy. simpl. rewrite Hfirst. simpl.
    assert (Hinv : loop_inv [] (length h) (h ++ [s0]) [] s0).
    { split; [by apply prefix_app_r|done|by apply list_lookup_middle
             |constructor|constructor]. }
    destruct (loop_inv_fold rest rsegs Hrest _ _ _ _ _ Hinv)
      as (m1 & c1 & h1 & Hfold & [Hpre Hfresh Hcur Hold Hmerged]).
    rewrite Hfold. simpl.
    destruct (fold_left _ rsegs ([], s0)) as [mv cv]. cbn [fst snd] in *.
    eexists _, _. split; [reflexivity|]. split; [|split].
    + apply mapM_Some, Forall2_app; [done|]. by repeat constructor.
    + intros r s Hr. by eapply prefix_lookup_Some.
    + apply Forall_app. split.
      * eapply Forall_impl; [exact Hold|]. cbn. lia.
      * by repeat constructor.
Qed.

End MergeStore.

(** C7. The merger is a function of its arguments alone: the empty input
    gives the empty output, a single segment gives that segment, and run
    on a store of objects it returns the merged values in objects of its
    own and changes no object that existed before the call, the input
    segments among them. *)
Theorem merge_is_pure (target_duration pause_threshold : float)
    (h : Fetch.store) (refs : list Fetch.loc) (segs : list Segment) :
  Fetch.deref h refs = Some segs →
  Fetch.merge_into_paragraphs [] target_duration pause_threshold = []
  ∧ (∀ s, Fetch.merge_into_paragraphs [s] target_duration pause_threshold = [s])
  ∧ ∃ out h',
      Fetch.merge_into_paragraphs_store refs target_duration pause_threshold h
        = Some (out, h')
      ∧ Fetch.deref h' out
        = Some (Fetch.merge_into_paragraphs segs target_duration pause_threshold)
      ∧ (∀ r s, h !! r = Some s → h' !! r = Some s)
      ∧ Fetch.deref h' refs = Some segs
      ∧ Forall (λ r, (length h ≤ r)%nat) out.
Proof.
  intros Hrefs. split; [done|]. split; [done|].
  destruct (merge_store_refines target_duration pause_threshold h refs segs Hrefs)
    as (out & h' & Hrun & Hout & Hkeep & Hnew).
  exists out, h'. repeat split; try done.
  unfold Fetch.deref in *. apply mapM_Some. apply mapM_Some in Hrefs.
  eapply Forall2_impl; [exact Hrefs|]. intros r s. apply Hkeep.
Qed.

Lemma merge_is_pure_witness :
  let h := Spec.pause_example in
  ∃ out h',
    Fetch.merge_into_paragraphs_store [0; 1; 2; 3]%nat 30 1.5 h = Some (out, h')
    ∧ Fetch.deref h' out = Some (Fetch.merge_into_paragraphs h 30 1.5)
    ∧ Fetch.deref h' [0; 1; 2; 3]%nat = Some h.
Proof.
  intros h.
  destruct (merge_is_pure 30 1.5 h [0; 1; 2; 3]%nat h eq_refl)
    as (_ & _ & out & h' & Hrun & Hout & _ & Hin & _).
  by exists out, h'.
Defined.

(** ** The window planner *)

Section Windows.

Import Spec.

Context {A : Type}.

Lemma range_len_step (n m : Z) :
  1 ≤ m → m < n → range_len n m = range_len (n - m) m + 1.
Proof.
  intros Hm Hn. unfold range_len.
  destruct (Z.ltb_spec 0 n); [|lia]. destruct (Z.ltb_spec 0 (n - m)); [|lia].
  replace (n - 1) with ((n - m - 1) + 1 * m) by lia.
  rewrite Z.div_add by lia. lia.
Qed.

Lemma range_len_last (n m : Z) : 1 ≤ m → 0 < n → n ≤ m → range_len n m = 1.
Proof.
  intros Hm Hn Hle. unfold range_len.
  destruct (Z.ltb_spec 0 n); [|lia]. rewrite Z.div_small by lia. lia.
Qed.

Lemma range_len_bound (n m : Z) (k : Z) :
  1 ≤ m → 0 ≤ k → k < range_len n m → k * m < n.
Proof.
  intros Hm Hk. unfold range_len. destruct (Z.ltb_spec 0 n); [|lia].
  intros Hlt. assert (k ≤ (n - 1) / m) by lia.
  pose proof (Z.mul_div_le (n - 1) m ltac:(lia)). nia.
Qed.

(** A slice that starts inside the list is a [take] of a [drop]. *)
Lemma slice_take_drop (l : list A) (i m : nat) :
  (i < length l)%nat →
  Py.slice l (Z.of_nat i) (Z.of_nat i + Z.of_nat m) = take m (drop i l).
Proof.
  intros Hi. unfold Py.slice, Py.clamp.
  destruct (Z.ltb_spec (Z.of_nat i) 0); [lia|].
  destruct (Z.ltb_spec (Z.of_nat i + Z.of_nat m) 0); [lia|].
  rewrite (Z.min_l (Z.of_nat i)) by lia. rewrite Nat2Z.id.
  destruct (Z.min_spec (Z.of_nat i + Z.of_nat m) (Z.of_nat (length l)))
    as [[Hlt ->]|[Hge ->]].
  - f_equal. lia.
  - rewrite !take_ge; [done| |]; rewrite length_drop; lia.
Qed.

(** On a positive size the function returns, and its chunks are the
    [chunk_at]. *)
Lemma chunk_segments_chunk_at (segments : list A) (max_segments : Z) :
  1 ≤ max_segments →
  chunk_segments segments max_segments =
  Some (map (chunk_at (Z.to_nat max_segments) segments)
          (seq 0 (Z.to_nat (range_len (Z.of_nat (length segments)) max_segments)))).
Proof.
  intros Hm. destruct (Z_of_nat_complete max_segments) as [m ->]; [lia|].
  rewrite Nat2Z.id. unfold chunk_segments, Py.range.
  destruct (Z.eqb_spec (Z.of_nat m) 0); [lia|].
  destruct (Z.ltb_spec 0 (Z.of_nat m)); [|lia].
  simpl. f_equal. rewrite map_map.
  replace (if 0 <? Z.of_nat (length segments)
           then (Z.of_nat (length segments) - 0 - 1) / Z.of_nat m + 1 else 0)
    with (range_len (Z.of_nat (length segments)) (Z.of_nat m))
    by (unfold range_len; by rewrite Z.sub_0_r).
  apply map_ext_in. intros k Hk. apply in_seq in Hk.
  assert (Hlt : Z.of_nat k * Z.of_nat m < Z.of_nat (length segments))
    by (apply range_len_bound; lia).
  unfold chunk_at.
  replace (0 + Z.of_nat k * Z.of_nat m) with (Z.of_nat (k * m)) by lia.
  apply slice_take_drop. lia.
Qed.

Lemma range_len_nonneg (n m : Z) : 1 ≤ m → 0 ≤ range_len n m.
Proof.
  intros Hm. unfold range_len. destruct (Z.ltb_spec 0 n); [|lia].
  pose proof (Z.div_pos (n - 1) m ltac:(lia) ltac:(lia)). lia.
Qed.

Lemma chunk_at_succ (m : nat) (l : list A) (k : nat) :
  chunk_at m l (S k) = chunk_at m (drop m l) k.
Proof. unfold chunk_at. rewrite drop_drop. do 2 f_equal. Qed.

(** The chunks of a list, by recursion on the list: the first [m]
    elements, then the chunks of the rest. *)
Lemma chunks_unfold (m : nat) (l : list A) :
  (0 < m)%nat → l ≠ [] →
  map (chunk_at m l)
    (seq 0 (Z.to_nat (range_len (Z.of_nat (length l)) (Z.of_nat m)))) =
  take m l ::
  map (chunk_at m (drop m l))
    (seq 0 (Z.to_nat (range_len (Z.of_nat (length (drop m l))) (Z.of_nat m)))).
Proof.
  intros Hm Hl. assert (0 < length l)%nat by (destruct l; [done|simpl; lia]).
  rewrite length_drop.
  destruct (decide (length l ≤ m)%nat) as [Hle|Hgt].
  - rewrite range_len_last by lia.
    replace (length l - m)%nat with 0%nat by lia. done.
  - rewrite (range_len_step (Z.of_nat (length l))) by lia.
    replace (Z.of_nat (length l) - Z.of_nat m)
      with (Z.of_nat (length l - m)) by lia.
    pose proof (range_len_nonneg (Z.of_nat (length l - m)) (Z.of_nat m)
                  ltac:(lia)).
    rewrite Z2Nat.inj_add by lia.
    change (Z.to_nat 1) with 1%nat. rewrite Nat.add_1_r. cbn [seq map].
    f_equal. rewrite <- seq_shift, map_map.
    apply map_ext. intros k. apply chunk_at_succ.
Qed.

Lemma chunks_of_nil (m : nat) :
  map (chunk_at m (@nil A))
    (seq 0 (Z.to_nat (range_len (Z.of_nat (length (@nil A))) (Z.of_nat m)))) = [].
Proof. reflexivity. Qed.

(** The three facts about the chunks, by induction on a bound of the
    length of the list. *)
Lemma chunks_partition (m : nat) :
  (0 < m)%nat →
  ∀ (n : nat) (l : list A), (length l ≤ n)%nat →
    let cs := map (chunk_at m l)
                (seq 0 (Z.to_nat (range_len (Z.of_nat (length l)) (Z.of_nat m)))) in
    concat cs = l
    ∧ Forall (λ c, (1 ≤ length c ≤ m)%nat) cs
    ∧ (∀ i c, cs !! i = Some c → (S i < length cs)%nat → length c = m).
Proof.
  intros Hm. induction n as [|n IH]; intros l Hn.
  - destruct l; [|simpl in Hn; lia]. cbv zeta. rewrite chunks_of_nil.
    split; [done|]. split; [constructor|]. intros i c Hc. done.
  - destruct (decide (l = [])) as [->|Hne].
    { cbv zeta. rewrite chunks_of_nil.
      split; [done|]. split; [constructor|]. intros i c Hc. done. }
    cbv zeta. rewrite chunks_unfold by done.
    assert (0 < length l)%nat by (destruct l; [done|simpl; lia]).
    destruct (IH (drop m l)) as (Hcat & Hall & Hfull).
    { rewrite length_drop. lia. }
    split; [|split].
    + cbn [concat]. rewrite Hcat. apply take_drop.
    + constructor; [|exact Hall]. rewrite length_take. lia.
    + intros [|i] c Hc Hlen.
      * injection Hc as <-. rewrite length_take.
        cbn [length] in Hlen.
        destruct (decide (length l ≤ m)%nat) as [Hle|Hgt]; [|lia].
        exfalso. rewrite length_map, length_seq, length_drop in Hlen.
        replace (length l - m)%nat with 0%nat in Hlen by lia.
        change (range_len (Z.of_nat 0) (Z.of_nat m)) with 0 in Hlen.
        simpl in Hlen. lia.
      * cbn [length] in Hlen. apply (Hfull i c); [exact Hc|lia].
Qed.

Lemma chunk_segments_concat (segments : list A) (max_segments : Z) :
  1 ≤ max_segments →
  ∃ chunks, chunk_segments segments max_segments = Some chunks
            ∧ concat chunks = segments.
Proof.
  intros Hm. eexists. split; [by apply chunk_segments_chunk_at|].
  destruct (chunks_partition (Z.to_nat max_segments) ltac:(lia)
              (length segments) segments ltac:(lia)) as (Hcat & _).
  rewrite Z2Nat.id in Hcat by lia. exact Hcat.
Qed.

Lemma sum_lengths_concat (ls : list (list A)) :
  sum_list (length <$> ls) = length (concat ls).
Proof.
  induction ls as [|c cs IH]; [done|].
  cbn. rewrite length_app. by rewrite <- IH.
Qed.

End Windows.

(** C5. For a positive window size the planner returns windows that,
    concatenated in order, are the input (so their sizes add up to its
    length and no segment is in two windows); no window is empty, none is
    larger than [max_segments], and every window but the last has
    exactly [max_segments] segments.  The result is a function of the two
    arguments. *)
Theorem chunk_segments_partition {A : Type} (segments : list A)
    (max_segments : Z) :
  1 ≤ max_segments →
  ∃ chunks : list (list A),
    chunk_segments segments max_segments = Some chunks
    ∧ concat chunks = segments
    ∧ sum_list (length <$> chunks) = length segments
    ∧ Forall (λ c, 1 ≤ Z.of_nat (length c) ≤ max_segments) chunks
    ∧ (∀ i c, chunks !! i = Some c → (S i < length chunks)%nat →
         Z.of_nat (length c) = max_segments).
Proof.
  intros Hm. eexists. split; [by apply chunk_segments_chunk_at|].
  destruct (chunks_partition (Z.to_nat max_segments) ltac:(lia)
              (length segments) segments ltac:(lia)) as (Hcat & Hall & Hfull).
  rewrite Z2Nat.id in Hcat, Hall, Hfull by lia.
  split; [exact Hcat|]. split; [|split].
  - by rewrite sum_lengths_concat, Hcat.
  - eapply Forall_impl; [exact Hall|]. cbn. lia.
  - intros i c Hc Hlen. rewrite (Hfull i c Hc Hlen). lia.
Qed.

Lemma chunk_segments_partition_witness :
  ∃ chunks : list (list nat),
    chunk_segments [1; 2; 3; 4; 5]%nat 2 = Some chunks
    ∧ concat chunks = [1; 2; 3; 4; 5]%nat.
Proof.
  destruct (chunk_segments_partition [1; 2; 3; 4; 5]%nat 2 ltac:(lia))
    as (chunks & Hrun & Hcat & _).
  by exists chunks.
Defined.

(** ** The editing loop: structural roles, style reference, carried titles *)

Section EditClaims.

Import Edit Spec.

(** C1, on the code. The role depends on the index and the count alone;
    with two or more windows the first one opens, the last one closes and
    the ones between do neither.  The test for index 0 comes first, so the
    only window of a single-window run is told to open and not to close:
    there is no role of a complete document. *)
Theorem structure_instruction_roles (i total_chunks : Z) :
  structure_instruction 0 total_chunks = open_only
  ∧ structure_instruction 0 1 = open_only
  ∧ (2 ≤ total_chunks →
     structure_instruction (total_chunks - 1) total_chunks = close_only)
  ∧ (0 < i < total_chunks - 1 →
     structure_instruction i total_chunks = body_only)
  ∧ open_only ≠ close_only ∧ open_only ≠ body_only ∧ close_only ≠ body_only.
Proof.
  unfold structure_instruction. repeat split; try done.
  - intros H. destruct (Z.eqb_spec (total_chunks - 1) 0); [lia|].
    by rewrite Z.eqb_refl.
  - intros H. destruct (Z.eqb_spec i 0); [lia|].
    destruct (Z.eqb_spec i (total_chunks - 1)); [lia|done].
Qed.

(** The system text is the text without a reference document and without
    carried titles, followed by the reference instruction and the context
    instruction. *)
Lemma system_prompt_parts (meta : gmap string PyVal) (lang : string)
    (reference_html : option string) (i total_chunks : Z) (previous : string) :
  system_prompt meta lang reference_html i total_chunks previous
  = system_prompt meta lang None i total_chunks EmptyString
    +:+ reference_instruction reference_html i
    +:+ context_instruction previous.
Proof.
  unfold system_prompt.
  change (reference_instruction None i) with EmptyString.
  change (context_instruction EmptyString) with EmptyString.
  change (EmptyString +:+ EmptyString) with EmptyString.
  rewrite string_app_nil_r, !string_app_assoc. reflexivity.
Qed.

Lemma edit_request_system (segments : list Segment) (meta : gmap string PyVal)
    (lang : string) (reference_html : option string) (i total_chunks : Z)
    (previous : string) (req : Request) :
  edit_request segments meta lang reference_html i total_chunks previous
  = Some req →
  system req = system_prompt meta lang reference_html i total_chunks previous.
Proof.
  unfold edit_request. destruct (text_block segments); [|done].
  by intros [= <-].
Qed.

Lemma contains_occurs (a sub b : string) : Py.contains sub (a +:+ sub +:+ b) = true.
Proof. apply bool_decide_eq_true, find_occurs. Qed.

(** C6. A reference document that counts as present (a non-empty string)
    is attached in full to window 0 alone: the system text of the request
    for window 0 is the text of a run without a reference, followed by
    the sentence that introduces the document and by the document itself,
    whole, between code fences (and then by the context instruction).
    Any later window gets the fixed consistency sentence, so that its
    whole request is the same whatever the document says; without a
    reference document (none, or an empty one) no window gets a reference
    instruction. *)
Theorem reference_only_on_first (segments : list Segment)
    (meta : gmap string PyVal) (lang : string) (html : string)
    (i total_chunks : Z) (previous : string) :
  Py.truthy_str html = true →
  let document :=
    Py.nl +:+ Py.nl
    +:+ "Here is a COMPLETE reference HTML from another episode. "
    +:+ "Match this EXACT style, CSS, and HTML structure:" +:+ Py.nl +:+ Py.nl
    +:+ "```html" +:+ Py.nl +:+ html +:+ Py.nl +:+ "```" +:+ Py.nl in
  reference_instruction (Some html) 0 = exemplar_instruction html
  ∧ reference_instruction (Some html) 0 = document
  ∧ (∀ req,
       edit_request segments meta lang (Some html) 0 total_chunks previous
       = Some req →
       system req
       = system_prompt meta lang None 0 total_chunks EmptyString
         +:+ document +:+ context_instruction previous
       ∧ Py.contains html (system req) = true
       ∧ edit_request segments meta lang None 0 total_chunks previous
         = Some {| model := model req; max_tokens := max_tokens req;
                   system := system_prompt meta lang None 0 total_chunks previous;
                   content := content req |})
  ∧ (i ≠ 0 →
     reference_instruction (Some html) i = consistency_instruction
     ∧ reference_instruction (Some html) i
       = Py.nl +:+ Py.nl
         +:+ "Continue using the same HTML structure (sections, dialogue divs, "
         +:+ "speaker classes, blockquotes) as the previous chunks."
     ∧ (∀ req,
          edit_request segments meta lang (Some html) i total_chunks previous
          = Some req →
          system req
          = system_prompt meta lang None i total_chunks EmptyString
            +:+ consistency_instruction +:+ context_instruction previous)
     ∧ ∀ html', Py.truthy_str html' = true →
         edit_request segments meta lang (Some html') i total_chunks previous
         = edit_request segments meta lang (Some html) i total_chunks previous)
  ∧ reference_instruction None i = EmptyString
  ∧ reference_instruction (Some EmptyString) i = EmptyString
  ∧ edit_request segments meta lang (Some EmptyString) i total_chunks previous
    = edit_request segments meta lang None i total_chunks previous.
Proof.
  intros Hhtml document.
  assert (Hdoc : reference_instruction (Some html) 0 = document).
  { unfold reference_instruction. rewrite Hhtml. done. }
  split; [by unfold reference_instruction; rewrite Hhtml|].
  split; [exact Hdoc|]. split; [|split; [|done]].
  - intros req Hreq.
    pose proof (edit_request_system _ _ _ _ _ _ _ _ Hreq) as Hsys.
    rewrite system_prompt_parts, Hdoc in Hsys.
    split; [exact Hsys|]. split.
    + assert (system req
              = (system_prompt meta lang None 0 total_chunks EmptyString
                 +:+ Py.nl +:+ Py.nl
                 +:+ "Here is a COMPLETE reference HTML from another episode. "
                 +:+ "Match this EXACT style, CSS, and HTML structure:"
                 +:+ Py.nl +:+ Py.nl +:+ "```html" +:+ Py.nl)
                +:+ html
                +:+ (Py.nl +:+ "```" +:+ Py.nl +:+ context_instruction previous))
        as ->
        by (rewrite Hsys; unfold document; by rewrite !string_app_assoc).
      apply contains_occurs.
    + revert Hreq. unfold edit_request.
      destruct (text_block segments); [|done]. by intros [= <-].
  - intros Hi.
    assert (Hlater : reference_instruction (Some html) i = consistency_instruction).
    { unfold reference_instruction. rewrite Hhtml.
      by destruct (Z.eqb_spec i 0). }
    split; [exact Hlater|]. split; [exact Hlater|]. split.
    + intros req Hreq. apply edit_request_system in Hreq.
      by rewrite system_prompt_parts, Hlater in Hreq.
    + intros html' Hhtml'. unfold edit_request, system_prompt, reference_instruction.
      rewrite Hhtml, Hhtml'. destruct (Z.eqb_spec i 0); done.
Qed.

Lemma reference_only_on_first_witness :
  reference_instruction (Some "<html></html>") 0
  = exemplar_instruction "<html></html>"
  ∧ reference_instruction (Some "<html></html>") 3 = consistency_instruction
  ∧ ∃ req,
      edit_request [] ∅ "es" (Some "<html></html>") 0 5 EmptyString = Some req
      ∧ Py.contains "<html></html>" (system req) = true.
Proof.
  destruct (reference_only_on_first [] ∅ "es" "<html></html>" 3 5 EmptyString
              eq_refl) as (H0 & _ & Hfirst & Hlater & _).
  split; [exact H0|]. split; [apply Hlater; lia|].
  eexists. split; [reflexivity|].
  eapply Hfirst. reflexivity.
Defined.

(** The carried string grows at its end, by the titles of each new
    fragment. *)
Lemma carried_snoc (fragments : list string) (html : string) :
  carried (fragments ++ [html]) =
  carried fragments +:+ extract_section_titles html +:+ Py.nl.
Proof. unfold carried. by rewrite fold_left_app. Qed.

Lemma requests_app (t u : list Event) :
  requests (t ++ u) = requests t ++ requests u.
Proof. apply omap_app. Qed.

Lemma responses_app (t u : list Event) :
  responses (t ++ u) = responses t ++ responses u.
Proof. apply omap_app. Qed.

Lemma requests_prints (lines : list string) : requests (map Print lines) = [].
Proof. induction lines; [done|]. exact IHlines. Qed.

Lemma responses_prints (lines : list string) : responses (map Print lines) = [].
Proof. induction lines; [done|]. exact IHlines. Qed.

Lemma carried_from (fragments : list string) (acc : string) :
  fold_left (λ acc html, acc +:+ extract_section_titles html +:+ Py.nl)
    fragments acc
  = acc +:+ carried fragments.
Proof.
  revert acc. induction fragments as [|html fragments IH]; intros acc.
  - by rewrite string_app_nil_r.
  - unfold carried. cbn [fold_left]. rewrite IH, (IH (_ +:+ _)).
    by rewrite !string_app_assoc.
Qed.

Lemma carried_cons (html : string) (fragments : list string) :
  carried (html :: fragments) =
  extract_section_titles html +:+ Py.nl +:+ carried fragments.
Proof.
  unfold carried at 1. cbn [fold_left]. rewrite carried_from.
  by rewrite !string_app_assoc.
Qed.

(** A title entry is a non-empty string on one line. *)
Lemma title_of_line_entry (line t : string) :
  one_line line → title_of_line line = Some t →
  one_line t ∧ Py.truthy_str t = true.
Proof.
  unfold title_of_line. intros Hline.
  destruct (_ && _); [|done].
  destruct (Py.find "<h2>" line) as [i|]; [|done].
  destruct (Py.find "</h2>" line) as [j|]; [|done].
  cbn. intros [= <-]. split; [|done].
  apply (one_line_app "- "); [by repeat split|].
  by apply one_line_substring.
Qed.

Lemma section_titles_entries (html : string) :
  Forall (λ t, one_line t ∧ Py.truthy_str t = true) (section_titles html).
Proof.
  unfold section_titles.
  induction (split_lines_one_line html) as [|line lines Hline _ IH]; [constructor|].
  cbn [omap list_omap]. destruct (title_of_line line) as [t|] eqn:Ht; [|exact IH].
  constructor; [by eapply title_of_line_entry|exact IH].
Qed.

(** The entries of a block of titles followed by a newline are the
    titles, then the entries of what follows. *)
Lemma nonempty_lines_join (titles : list string) (rest : string) :
  Forall (λ t, one_line t ∧ Py.truthy_str t = true) titles →
  nonempty_lines (Py.join Py.nl titles +:+ Py.nl +:+ rest)
  = titles ++ nonempty_lines rest.
Proof.
  unfold nonempty_lines.
  induction 1 as [|t titles [Hline Htrue] Hrest IH].
  - by rewrite (split_one_line_app EmptyString).
  - destruct titles as [|t2 titles].
    + cbn [Py.join]. rewrite split_one_line_app by done.
      cbn [List.filter]. by rewrite Htrue.
    + change (Py.join Py.nl (t :: t2 :: titles))
        with (t +:+ Py.nl +:+ Py.join Py.nl (t2 :: titles)).
      rewrite !string_app_assoc. rewrite split_one_line_app by done.
      cbn [List.filter]. rewrite Htrue. by rewrite IH.
Qed.

(** The carried string holds exactly the titles of the fragments, in
    order. *)
Lemma nonempty_lines_carried (fragments : list string) :
  nonempty_lines (carried fragments) = concat (map section_titles fragments).
Proof.
  induction fragments as [|html fragments IH]; [done|].
  rewrite carried_cons. unfold extract_section_titles.
  rewrite nonempty_lines_join by apply section_titles_entries.
  by rewrite IH.
Qed.

(** The system text ends with the context instruction. *)
Lemma system_prompt_context (meta : gmap string PyVal) (lang : string)
    (reference_html : option string) (i total_chunks : Z) (previous : string) :
  system_prompt meta lang reference_html i total_chunks previous
  = system_prompt meta lang reference_html i total_chunks EmptyString
    +:+ context_instruction previous.
Proof.
  unfold system_prompt.
  change (context_instruction EmptyString) with EmptyString.
  rewrite string_app_nil_r, !string_app_assoc. reflexivity.
Qed.

(** Once a fragment has been received, the context instruction is the
    header on its line followed by the carried string, and its non-empty
    lines are the header and the titles. *)
Lemma context_instruction_carried (html : string) (fragments : list string) :
  context_instruction (carried (html :: fragments))
  = Py.nl +:+ Py.nl +:+ titles_header +:+ Py.nl +:+ carried (html :: fragments)
  ∧ nonempty_lines (context_instruction (carried (html :: fragments)))
    = titles_header :: concat (map section_titles (html :: fragments)).
Proof.
  assert (Hctx : context_instruction (carried (html :: fragments))
                 = Py.nl +:+ Py.nl +:+ titles_header +:+ Py.nl
                   +:+ carried (html :: fragments)).
  { unfold context_instruction. rewrite carried_cons at 1.
    rewrite truthy_app_nl. unfold titles_header.
    by rewrite !string_app_assoc. }
  split; [exact Hctx|].
  rewrite Hctx, <- nonempty_lines_carried.
  unfold nonempty_lines. rewrite !split_blank_line.
  rewrite split_one_line_app by (apply one_line_has_char; by vm_compute).
  done.
Qed.

(** A title of the carried string occurs in it. *)
Lemma carried_title_occurs (fragments : list string) (title : string) :
  title ∈ concat (map section_titles fragments) →
  ∃ x y, carried fragments = x +:+ title +:+ y.
Proof.
  rewrite <- nonempty_lines_carried. unfold nonempty_lines.
  intros Hin. apply list_elem_of_In, List.filter_In in Hin as [Hin _].
  apply list_elem_of_In in Hin. by apply split_elem_cut in Hin.
Qed.

Section Loop.

Variable cl : Client.
Variable meta : gmap string PyVal.
Variable lang : string.
Variable reference_html : option string.
Variable total_chunks : Z.

Local Abbreviation causal' := (causal cl meta lang reference_html total_chunks).

Local Abbreviation carrier_inv :=
  (Spec.carrier_inv cl meta lang reference_html total_chunks).

Lemma causal_more (done rest : list (list Segment)) (t : list Event) :
  causal' done t → causal' (done ++ rest) t.
Proof.
  intros [Hreq Hans]. split; [|exact Hans].
  intros i req Hi. destruct (Hreq i req Hi) as (chunk & Hchunk & Hbuilt).
  exists chunk. split; [by apply lookup_app_l_Some|done].
Qed.

(** One more call, answered or not, keeps the trace causal. *)
Lemma causal_call (done : list (list Segment)) (chunk : list Segment)
    (st : Carrier) (req : Request) (answer : option string)
    (before after : list Event) :
  carrier_inv done st →
  requests before = [] → responses before = [] →
  requests after = [] → responses after = [] →
  edit_request chunk meta lang reference_html (Z.of_nat (length done))
    total_chunks (previous_sections st) = Some req →
  cl (length done) req = answer →
  causal' (done ++ [chunk]) (steps st ++ before ++ [Call req answer] ++ after).
Proof.
  intros [Hnreq Hnans Hprev _ [Hreq Hans]] Hb1 Hb2 Ha1 Ha2 Hbuilt Hcl.
  assert (Hrs : requests (steps st ++ before ++ [Call req answer] ++ after)
                = requests (steps st) ++ [req]).
  { rewrite !requests_app, Hb1, Ha1. by destruct answer. }
  assert (Has : responses (steps st ++ before ++ [Call req answer] ++ after)
                = responses (steps st)
                  ++ match answer with Some a => [a] | None => [] end).
  { rewrite !responses_app, Hb2, Ha2. destruct answer; by rewrite ?app_nil_r. }
  split.
  - intros i r. rewrite Hrs, Has. intros Hi.
    destruct (decide (i < length done)%nat) as [Hlt|Hge].
    + rewrite lookup_app_l in Hi by lia.
      destruct (Hreq i r Hi) as (c & Hc & Hb).
      exists c. split; [by apply lookup_app_l_Some|].
      rewrite take_app_le by lia. exact Hb.
    + apply lookup_lt_Some in Hi as Hlen. rewrite length_app in Hlen.
      cbn in Hlen. assert (i = length done) as -> by lia.
      rewrite lookup_app_r, Hnreq, Nat.sub_diag in Hi by lia.
      injection Hi as <-.
      exists chunk. split; [by apply list_lookup_middle|].
      rewrite take_app_le, take_ge by lia. by rewrite <- Hprev.
  - intros i a. rewrite Hrs, Has. intros Hi.
    destruct (decide (i < length done)%nat) as [Hlt|Hge].
    + rewrite lookup_app_l in Hi by lia.
      destruct (Hans i a Hi) as (r & Hr & Hc).
      exists r. split; [by apply lookup_app_l_Some|done].
    + apply lookup_lt_Some in Hi as Hlen. rewrite length_app in Hlen.
      destruct answer as [a'|]; cbn in Hlen; [|lia].
      assert (i = length done) as -> by lia.
      rewrite lookup_app_r, Hnans, Nat.sub_diag in Hi by lia.
      injection Hi as <-.
      exists req. split; [|done].
      by rewrite lookup_app_r, Hnreq, Nat.sub_diag by lia.
Qed.

Lemma process_chunks_inv (rest : list (list Segment)) :
  ∀ (done : list (list Segment)) (st : Carrier),
    carrier_inv done st →
    match process_chunks cl meta lang reference_html total_chunks
            (length done) rest st with
    | inl st' => carrier_inv (done ++ rest) st'
    | inr t =>
        causal' (done ++ rest) t
        ∧ (length (responses t) < length (done ++ rest))%nat
    end.
Proof.
  induction rest as [|chunk rest IH]; intros done st Hinv.
  - cbn. by rewrite app_nil_r.
  - cbn [process_chunks]. unfold process_chunk.
    destruct (edit_request chunk _ _ _ _ _ _) as [req|] eqn:Hbuilt.
    2:{ destruct Hinv as [_ Hnans _ _ [Hreq Hans]].
        split.
        - apply causal_more. split.
          + intros i r. rewrite requests_app, responses_app, !app_nil_r. apply Hreq.
          + intros i a. rewrite requests_app, responses_app, !app_nil_r. apply Hans.
        - rewrite responses_app, app_nil_r, Hnans, length_app. cbn. lia. }
    destruct (cl (length done) req) as [html_part|] eqn:Hcl.
    + replace (done ++ chunk :: rest) with ((done ++ [chunk]) ++ rest)
        by (by rewrite <- app_assoc).
      replace (S (length done)) with (length (done ++ [chunk]))
        by (rewrite length_app; cbn; lia).
      apply IH.
      assert (Hc := λ s, causal_call done chunk st req (Some html_part)
                    [Print s] [Print "done"]
                    Hinv eq_refl eq_refl eq_refl eq_refl Hbuilt Hcl).
      destruct Hinv as [Hnreq Hnans Hprev Hparts _].
      split; cbn [steps previous_sections all_html_parts].
      * rewrite requests_app, !length_app, Hnreq. done.
      * rewrite responses_app, !length_app, Hnans. done.
      * rewrite responses_app.
        change (responses [_; Call req (Some html_part); _]) with [html_part].
        rewrite carried_snoc, Hprev. done.
      * rewrite responses_app, Hparts. done.
      * apply Hc.
    + split.
      * replace (done ++ chunk :: rest) with ((done ++ [chunk]) ++ rest)
          by (by rewrite <- app_assoc).
        apply causal_more.
        apply (causal_call done chunk st req None [Print _] []
                 Hinv eq_refl eq_refl eq_refl eq_refl Hbuilt Hcl).
      * destruct Hinv as [_ Hnans _ _ _].
        rewrite responses_app, app_nil_r, Hnans, length_app. cbn. lia.
Qed.

(** Every call but the last one of a run has been answered. *)
Lemma process_chunks_calls (rest : list (list Segment)) :
  ∀ (i : nat) (st : Carrier),
    length (requests (steps st)) = length (responses (steps st)) →
    match process_chunks cl meta lang reference_html total_chunks i rest st with
    | inl st' => length (requests (steps st')) = length (responses (steps st'))
    | inr t => (length (requests t) ≤ length (responses t) + 1)%nat
    end.
Proof.
  induction rest as [|chunk rest IH]; intros i st Hlen; [done|].
  cbn [process_chunks]. unfold process_chunk.
  destruct (edit_request chunk _ _ _ _ _ _) as [req|].
  2:{ rewrite requests_app, responses_app, !length_app. cbn. lia. }
  destruct (cl i req) as [html_part|].
  - apply IH. cbn [steps]. rewrite requests_app, responses_app, !length_app.
    cbn. lia.
  - rewrite requests_app, responses_app, !length_app. cbn. lia.
Qed.

End Loop.

(** C2. In every run of the loop, finished or stopped by an exception,
    the request for window [i] is built from the string carried after the
    answers to windows [0 .. i-1] and from nothing later; that string is
    empty for window 0, holds exactly the titles extracted from those
    answers, in order, and grows by the titles of each answer before the
    next request is built.  The titles are supplied in the system text of
    the request: it ends with the context instruction, which is absent
    for window 0 and for a later window is the header followed by the
    carried string, so that its non-empty lines are the header and then
    exactly the titles of the answers to windows [0 .. i-1]; each of
    these titles occurs in the system text. *)
Theorem titles_are_causal (cl : Client) (meta : gmap string PyVal)
    (lang : string) (reference_html : option string) (total_chunks : Z)
    (chunks : list (list Segment)) (printed : list string) :
  let run :=
    process_chunks cl meta lang reference_html total_chunks 0 chunks
      {| all_html_parts := []; previous_sections := EmptyString;
         steps := map Print printed |} in
  let t := match run with inl st => steps st | inr t => t end in
  causal cl meta lang reference_html total_chunks chunks t
  ∧ match run with
    | inl st =>
        previous_sections st = carried (responses t)
        ∧ all_html_parts st = responses t
        ∧ length (responses t) = length chunks
    | inr _ => (length (responses t) < length chunks)%nat
    end
  ∧ carried [] = EmptyString
  ∧ (∀ fragments html,
       carried (fragments ++ [html])
       = carried fragments +:+ extract_section_titles html +:+ Py.nl)
  ∧ (∀ fragments,
       nonempty_lines (carried fragments) = concat (map section_titles fragments))
  ∧ (∀ (i : nat) (req : Request),
       requests t !! i = Some req →
       let previous := take i (responses t) in
       let supplied := context_instruction (carried previous) in
       length previous = i
       ∧ system req
         = system_prompt meta lang reference_html (Z.of_nat i) total_chunks
             EmptyString
           +:+ supplied
       ∧ (i = 0%nat → supplied = EmptyString)
       ∧ ((0 < i)%nat →
          supplied
          = Py.nl +:+ Py.nl +:+ titles_header +:+ Py.nl +:+ carried previous
          ∧ nonempty_lines supplied
            = titles_header :: concat (map section_titles previous))
       ∧ (∀ title,
            title ∈ concat (map section_titles previous) →
            Py.contains title (system req) = true)).
Proof.
  intros run t.
  assert (Hinv0 : carrier_inv cl meta lang reference_html total_chunks []
                    {| all_html_parts := []; previous_sections := EmptyString;
                       steps := map Print printed |}).
  { split; cbn [steps previous_sections all_html_parts];
      rewrite ?requests_prints, ?responses_prints; try done.
    split; intros i x; by rewrite ?requests_prints, ?responses_prints. }
  pose proof (process_chunks_inv cl meta lang reference_html total_chunks
                chunks [] _ Hinv0) as Hrun.
  cbn [length app] in Hrun. fold run in Hrun.
  assert (Hcausal : causal cl meta lang reference_html total_chunks chunks t).
  { subst t. destruct run as [st|t']; [apply Hrun|]. apply Hrun. }
  assert (Hcalls : (length (requests t) ≤ length (responses t) + 1)%nat).
  { pose proof (process_chunks_calls cl meta lang reference_html total_chunks
                  chunks 0
                  {| all_html_parts := []; previous_sections := EmptyString;
                     steps := map Print printed |}) as Hc.
    cbn [steps] in Hc. rewrite requests_prints, responses_prints in Hc.
    specialize (Hc eq_refl). fold run in Hc. subst t.
    destruct run as [st|t']; [rewrite Hc; lia|exact Hc]. }
  split; [exact Hcausal|]. split; [|split; [done|split; [|split]]].
  - subst t. destruct run as [st|t'].
    + destruct Hrun as [_ Hn Hprev Hparts _]. done.
    + apply Hrun.
  - apply carried_snoc.
  - apply nonempty_lines_carried.
  - intros i req Hi previous supplied.
    destruct Hcausal as [Hreq _].
    destruct (Hreq i req Hi) as (chunk & _ & Hbuilt).
    apply edit_request_system in Hbuilt. fold previous in Hbuilt.
    rewrite system_prompt_context in Hbuilt. fold supplied in Hbuilt.
    assert (Hlen : length previous = i).
    { apply lookup_lt_Some in Hi. unfold previous. rewrite length_take. lia. }
    split; [exact Hlen|]. split; [exact Hbuilt|].
    split; [|split].
    + intros ->. unfold supplied, previous. by rewrite take_0.
    + intros Hpos. unfold supplied.
      destruct previous as [|html fragments]; [cbn in Hlen; lia|].
      apply context_instruction_carried.
    + intros title Htitle. rewrite Hbuilt. unfold supplied.
      destruct previous as [|html fragments]; [by apply elem_of_nil in Htitle|].
      rewrite (proj1 (context_instruction_carried html fragments)).
      destruct (carried_title_occurs _ _ Htitle) as (x & y & ->).
      assert (∀ base,
                base +:+ Py.nl +:+ Py.nl +:+ titles_header +:+ Py.nl
                +:+ x +:+ title +:+ y
                = (base +:+ Py.nl +:+ Py.nl +:+ titles_header +:+ Py.nl +:+ x)
                  +:+ title +:+ y) as ->
        by (intros base; by rewrite !string_app_assoc).
      apply contains_occurs.
Qed.

(** Two windows and a service that answers each with the same heading:
    the request for the second window holds the title of the first
    answer. *)
Lemma titles_are_causal_witness :
  let answer := "<section>" +:+ Py.nl +:+ "<h2>Intro</h2>" +:+ Py.nl in
  ∃ st req,
    process_chunks (λ _ _, Some answer) ∅ "es" None 2 0
      [[ {| start := 0; duration := 4; text := "a" |} ];
       [ {| start := 4; duration := 4; text := "b" |} ]]
      {| all_html_parts := []; previous_sections := EmptyString; steps := [] |}
    = inl st
    ∧ requests (steps st) !! 1%nat = Some req
    ∧ Py.contains "- Intro" (system req) = true
    ∧ nonempty_lines (context_instruction (carried [answer]))
      = [titles_header; "- Intro"].
Proof.
  intros answer.
  pose proof (titles_are_causal (λ _ _, Some answer) ∅ "es" None 2
                [[ {| start := 0; duration := 4; text := "a" |} ];
                 [ {| start := 4; duration := 4; text := "b" |} ]] [])
    as (_ & _ & _ & _ & _ & H).
  eexists _, _. split; [vm_compute; reflexivity|].
  split; [vm_compute; reflexivity|].
  match type of H with
  | ∀ i req, requests ?t !! i = Some req → _ =>
      match goal with
      | |- Py.contains _ (system ?r) = true ∧ _ =>
          specialize (H 1%nat r ltac:(vm_compute; reflexivity))
      end
  end.
  cbv zeta in H. destruct H as (_ & _ & _ & Hlater & Hin).
  split.
  - apply Hin. vm_compute. apply list_elem_of_here.
  - destruct (Hlater ltac:(lia)) as [_ Hlines].
    etransitivity; [|etransitivity; [exact Hlines|]]; vm_compute; reflexivity.
Defined.

End EditClaims.

(** ** The Markdown rendering *)

Section Markdown.

Import Spec.

Lemma fmt_02d_length (n : Z) : 0 ≤ n < 60 → String.length (Py.fmt_02d n) = 2%nat.
Proof.
  intros Hn. destruct n as [|p|p]; [reflexivity| |lia].
  do 6 (destruct p as [p|p|]; try lia; try reflexivity).
Qed.

Lemma one_line_uint (d : Decimal.uint) : one_line (NilEmpty.string_of_uint d).
Proof. induction d; cbn; (done || by split). Qed.

Lemma one_line_str_int (n : Z) : one_line (Py.str_int n).
Proof.
  unfold Py.str_int. destruct (Z.to_int n) as [d|d]; cbn.
  - apply one_line_uint.
  - split; [done|apply one_line_uint].
Qed.

Lemma one_line_fmt_02d (n : Z) : one_line (Py.fmt_02d n).
Proof.
  unfold Py.fmt_02d. destruct (_ && _); [|apply one_line_str_int].
  apply (one_line_app "0"); [by split|apply one_line_str_int].
Qed.

Lemma format_time_stamp (seconds : float) (fl : Z) :
  Py.floor_float seconds = Some fl →
  ∃ stamp, format_time seconds = Some stamp
           ∧ stamp_of seconds stamp ∧ one_line stamp.
Proof.
  intros Hfl. unfold format_time. rewrite Hfl. cbn [mbind option_bind].
  eexists. split; [reflexivity|].
  pose proof (Z.mod_pos_bound fl 3600 ltac:(lia)) as Hm.
  pose proof (Z.mod_pos_bound fl 60 ltac:(lia)) as Hs.
  assert (0 ≤ fl `mod` 3600 / 60 < 60) as Hm'.
  { split; [apply Z.div_pos; lia|apply Z.div_lt_upper_bound; lia]. }
  split.
  - exists fl. split; [done|]. cbv zeta.
    split; [done|]. split; [done|]. split; [done|].
    split; by apply fmt_02d_length.
  - destruct (0 <? fl / 3600).
    + apply one_line_app; [apply one_line_str_int|].
      apply (one_line_app ":"); [by split|].
      apply one_line_app; [apply one_line_fmt_02d|].
      apply (one_line_app ":"); [by split|apply one_line_fmt_02d].
    + apply one_line_app; [apply one_line_str_int|].
      apply (one_line_app ":"); [by split|apply one_line_fmt_02d].
Qed.

(** The non-empty lines of entries that each end their line. *)
Lemma nonempty_lines_entries (lines : list string) :
  Forall (λ l, one_line l ∧ Py.truthy_str l = true) lines →
  nonempty_lines (Py.join Py.nl (map (λ l, l +:+ Py.nl) lines)) = lines.
Proof.
  unfold nonempty_lines.
  induction 1 as [|l lines [Hline Htrue] Hrest IH]; [done|].
  destruct lines as [|l2 lines].
  - cbn [map Py.join].
    rewrite <- (string_app_nil_r (l +:+ Py.nl)), string_app_assoc.
    rewrite split_one_line_app by done. cbn. by rewrite Htrue.
  - change (Py.join Py.nl (map (λ l, l +:+ Py.nl) (l :: l2 :: lines)))
      with ((l +:+ Py.nl) +:+ Py.nl
            +:+ Py.join Py.nl (map (λ l, l +:+ Py.nl) (l2 :: lines))).
    rewrite string_app_assoc, split_one_line_app by done.
    rewrite split_blank_line.
    cbn [List.filter Py.truthy_str]. rewrite Htrue. by rewrite IH.
Qed.

Lemma md_entry_line (seg : Segment) (stamp : string) :
  format_time (start seg) = Some stamp →
  md_entry seg = Some (md_line seg stamp +:+ Py.nl).
Proof.
  intros Hs. unfold md_entry, md_line. rewrite Hs. cbn [mbind option_bind].
  by rewrite !string_app_assoc.
Qed.

Lemma md_line_entry (seg : Segment) (stamp : string) :
  one_line stamp → one_line (text seg) →
  one_line (md_line seg stamp) ∧ Py.truthy_str (md_line seg stamp) = true.
Proof.
  intros Hs Ht. split; [|done]. unfold md_line.
  apply (one_line_app "**["); [by repeat split|].
  apply one_line_app; [done|].
  apply (one_line_app "]** "); [by repeat split|done].
Qed.

Lemma md_entries (segments : list Segment) :
  Forall (λ seg, is_Some (Py.floor_float (start seg)) ∧ one_line (text seg))
    segments →
  ∃ stamps : list string,
    Forall2 (λ seg stamp, format_time (start seg) = Some stamp
                          ∧ stamp_of (start seg) stamp) segments stamps
    ∧ mapM md_entry segments
      = Some (map (λ l, l +:+ Py.nl) (zip_with md_line segments stamps))
    ∧ Forall (λ l, one_line l ∧ Py.truthy_str l = true)
        (zip_with md_line segments stamps).
Proof.
  induction 1 as [|seg segments [[fl Hfl] Htext] _ (stamps & Hst & Hmap & Hall)].
  - exists []. split; [constructor|]. split; [done|constructor].
  - destruct (format_time_stamp _ _ Hfl) as (stamp & Hfmt & Hstamp & Hline).
    exists (stamp :: stamps). split; [by constructor|]. split.
    + cbn [mapM]. rewrite (md_entry_line seg stamp Hfmt), Hmap. done.
    + cbn [zip_with]. constructor; [by apply md_line_entry|done].
Qed.

(** A number in the range is finite, and its whole part is not negative. *)
Lemma stamp_range_floor (seconds : float) :
  stamp_range seconds = true →
  ∃ fl, Py.floor_float seconds = Some fl ∧ 0 ≤ fl.
Proof.
  unfold stamp_range, Py.floor_float.
  rewrite leb_spec, ltb_spec. intros H. apply andb_true_iff in H as [Hlo Hhi].
  destruct (Prim2SF seconds) as [sgn|sgn| |sgn m e].
  - by exists 0.
  - destruct sgn; [vm_compute in Hlo|vm_compute in Hhi]; discriminate.
  - vm_compute in Hlo. discriminate.
  - destruct sgn; [vm_compute in Hlo; discriminate|].
    eexists. split; [reflexivity|].
    destruct (Z.leb_spec 0 e).
    + apply Z.mul_nonneg_nonneg; [lia|apply Z.pow_nonneg; lia].
    + apply Z.div_pos; [lia|apply Z.pow_pos_nonneg; lia].
Qed.

(** C8. For segments whose start is a number of seconds from 0 up to 2^53
    and whose text is on one line, the Markdown text is written, and its
    non-empty lines are, in order, one line [**[<timestamp>]** <text>]
    per segment, where the timestamp of a start is [H:MM:SS] when its
    hours are positive and [M:SS] otherwise, minutes and seconds after
    the first field on two digits.  (Each entry ends its line, and
    entries are joined by a newline: an empty line follows each segment's
    line.) *)
Theorem markdown_one_line_per_segment (segments : list Segment) :
  Forall (λ seg, stamp_range (start seg) = true ∧ one_line (text seg))
    segments →
  ∃ (md : string) (stamps : list string),
    markdown segments = Some md
    ∧ Forall2 (λ seg stamp, format_time (start seg) = Some stamp
                            ∧ stamp_of (start seg) stamp) segments stamps
    ∧ md = Py.join Py.nl
             (map (λ l, l +:+ Py.nl) (zip_with md_line segments stamps))
    ∧ nonempty_lines md = zip_with md_line segments stamps.
Proof.
  intros Hsegs.
  assert (Hfin : Forall (λ seg, is_Some (Py.floor_float (start seg))
                                ∧ one_line (text seg)) segments).
  { eapply Forall_impl; [exact Hsegs|]. intros seg [Hr Ht]. split; [|done].
    destruct (stamp_range_floor _ Hr) as (fl & Hfl & _). by exists fl. }
  destruct (md_entries segments Hfin) as (stamps & Hst & Hmap & Hall).
  eexists _, stamps. unfold markdown. rewrite Hmap. cbn [mbind option_bind].
  split; [reflexivity|]. split; [done|]. split; [done|].
  by apply nonempty_lines_entries.
Qed.

Lemma markdown_one_line_per_segment_witness :
  ∃ md : string,
    markdown [ {| start := 3725.5; duration := 2; text := "hello there" |};
               {| start := 65; duration := 1; text := "bye" |} ] = Some md
    ∧ nonempty_lines md = ["**[1:02:05]** hello there"; "**[1:05]** bye"].
Proof.
  destruct (markdown_one_line_per_segment
              [ {| start := 3725.5; duration := 2; text := "hello there" |};
                {| start := 65; duration := 1; text := "bye" |} ])
    as (md & stamps & Hmd & Hst & _ & Hlines).
  - repeat (apply List.Forall_cons;
              [split; [vm_compute; reflexivity|by repeat split]|]).
    apply List.Forall_nil.
  - exists md. split; [exact Hmd|]. rewrite Hlines.
    apply Forall2_cons_inv_l in Hst as (s1 & st1 & [H1 _] & Hst & ->).
    apply Forall2_cons_inv_l in Hst as (s2 & st2 & [H2 _] & Hst & ->).
    apply Forall2_nil_inv_l in Hst as ->.
    vm_compute in H1, H2. injection H1 as <-. injection H2 as <-. reflexivity.
Defined.

(** The claim as written fails when a text has a newline in it (a caption
    of two lines, say): the rendering of the one segment
    [two_line_segment] has the two lines [**[0:00]** a] and [b], and no
    line [**[0:00]** <text>] with the text of the segment. *)
Lemma markdown_two_line_text :
  ∃ md : string,
    markdown [two_line_segment] = Some md
    ∧ format_time (start two_line_segment) = Some "0:00"
    ∧ nonempty_lines md = ["**[0:00]** a"; "b"]
    ∧ md_line two_line_segment "0:00" ∉ Py.split Py.nl_char md.
Proof.
  eexists. split; [vm_compute; reflexivity|]. split; [vm_compute; reflexivity|].
  split; [vm_compute; reflexivity|].
  vm_compute. intros H. repeat (apply elem_of_cons in H as [H|H]; [discriminate H|]).
  by apply elem_of_nil in H.
Qed.

End Markdown.

(** ** Pairing a translation with its chunk *)

Section Pairing.

Import Translate Spec.

(** C10. Each translated segment has the start and the duration of the
    input segment at its position, and the text taken from the line at
    that position; there are as many of them as the shorter of the chunk
    and the lines of the stripped answer, so that with fewer lines than
    segments the last segments of the chunk have no translation. *)
Theorem pair_translation_frame (cl : Client) (n : nat)
    (segments : list Segment) (target_lang context translated_text : string) :
  let lines := Py.split Py.nl_char (Py.strip translated_text) in
  let out := pair_translation segments translated_text in
  length out = Nat.min (length segments) (length lines)
  ∧ map start out = take (length out) (map start segments)
  ∧ map duration out = take (length out) (map duration segments)
  ∧ (∀ i seg', out !! i = Some seg' →
       ∃ seg line,
         segments !! i = Some seg ∧ lines !! i = Some line
         ∧ seg' = {| start := start seg; duration := duration seg;
                     text := line_text line |})
  ∧ ((length lines < length segments)%nat → length out = length lines)
  ∧ (∀ req,
       translate_request segments target_lang context = Some req →
       cl n req = Some translated_text →
       translate_chunk cl n segments target_lang context
       = ([Call req (Some translated_text)], Some out)).
Proof.
  intros lines out. unfold out, pair_translation. fold lines.
  assert (Hlen : length (zip_with translated_segment segments lines)
                 = Nat.min (length segments) (length lines))
    by apply length_zip_with.
  split; [exact Hlen|]. rewrite Hlen. clear Hlen.
  split; [|split; [|split; [|split]]].
  - generalize lines. clear. induction segments as [|seg segments IH]; intros [|l ls];
      try done. cbn. by rewrite IH.
  - generalize lines. clear. induction segments as [|seg segments IH]; intros [|l ls];
      try done. cbn. by rewrite IH.
  - intros i seg' Hi. apply lookup_zip_with_Some in Hi as (seg & line & -> & Hs & Hl).
    by exists seg, line.
  - lia.
  - intros req Hreq Hcl. unfold translate_chunk. by rewrite Hreq, Hcl.
Qed.

Lemma pair_translation_frame_witness :
  let text := "[0:00] uno" +:+ Py.nl +:+ "[0:04] dos" +:+ Py.nl in
  let spaced := "[0:00] uno" +:+ Py.nl +:+ nbsp in
  pair_translation short_translation_example text
  = [ {| start := 0; duration := 4; text := "uno" |};
      {| start := 4; duration := 4; text := "dos" |} ]
  ∧ pair_translation short_translation_example spaced
    = [ {| start := 0; duration := 4; text := "uno" |} ].
Proof.
  intros text spaced.
  destruct (pair_translation_frame (λ _ _, None) 0 short_translation_example
              "es" "Episode 1" text) as (_ & _ & _ & _ & Hshort & _).
  destruct (pair_translation_frame (λ _ _, None) 0 short_translation_example
              "es" "Episode 1" spaced) as (_ & _ & _ & _ & Hshort' & _).
  cbv zeta in Hshort, Hshort'.
  assert (Hn : length (pair_translation short_translation_example text) = 2%nat)
    by (apply Hshort; vm_compute; lia).
  assert (Hn' : length (pair_translation short_translation_example spaced) = 1%nat)
    by (apply Hshort'; vm_compute; lia).
  split; vm_compute; reflexivity.
Defined.

End Pairing.

(** ** Missing inputs *)

Section Inputs.

Import Spec.

Lemma text_block_finite (segments : list Segment) :
  Forall finite_start segments → is_Some (text_block segments).
Proof.
  induction 1 as [|seg segments [fl Hfl] _ [tl Htl]]; [by eexists|].
  cbn [text_block]. unfold format_time. rewrite Hfl, Htl. by eexists.
Qed.

Lemma chunks_finite (segments : list Segment) (max_segments : Z) :
  1 ≤ max_segments → Forall finite_start segments →
  ∃ chunks, chunk_segments segments max_segments = Some chunks
            ∧ Forall (Forall finite_start) chunks.
Proof.
  intros Hm Hfin.
  destruct (chunk_segments_concat segments max_segments Hm) as (chunks & Hc & Hcat).
  exists chunks. split; [exact Hc|]. rewrite <- Hcat in Hfin.
  clear -Hfin. induction chunks as [|c cs IH]; [constructor|].
  cbn in Hfin. apply Forall_app in Hfin as [Hc Hcs]. constructor; auto.
Qed.

(** The editing loop runs to its end when the service answers and the
    starts are finite. *)
Lemma process_chunks_total (cl : Client) meta lang reference_html total_chunks
    (chunks : list (list Segment)) :
  answers cl → Forall (Forall finite_start) chunks →
  ∀ i st, ∃ st',
    Edit.process_chunks cl meta lang reference_html total_chunks i chunks st
    = inl st'.
Proof.
  intros Hcl. induction 1 as [|chunk chunks Hchunk _ IH]; intros i st.
  - by eexists.
  - cbn [Edit.process_chunks]. unfold Edit.process_chunk, Edit.edit_request.
    destruct (text_block_finite chunk Hchunk) as [block ->].
    cbn [mbind option_bind].
    match goal with |- context [cl i ?r] => destruct (Hcl i r) as [a ->] end.
    apply IH.
Qed.

Lemma pair_translation_finite (segments : list Segment) (translated : string) :
  Forall finite_start segments →
  Forall finite_start (Translate.pair_translation segments translated).
Proof.
  unfold Translate.pair_translation.
  generalize (Py.split Py.nl_char (Py.strip translated)).
  intros lines Hfin. revert lines.
  induction Hfin as [|seg segments Hseg _ IH]; intros [|l ls]; try constructor.
  - exact Hseg.
  - apply IH.
Qed.

Lemma markdown_finite (segments : list Segment) :
  Forall finite_start segments → is_Some (markdown segments).
Proof.
  intros Hfin. unfold markdown.
  assert (is_Some (mapM md_entry segments)) as [lines ->]; [|by eexists].
  induction Hfin as [|seg segments [fl Hfl] _ [lines Hlines]]; [by eexists|].
  assert (is_Some (md_entry seg)) as [e He].
  { unfold md_entry, format_time. rewrite Hfl. by eexists. }
  cbn [mapM]. rewrite He, Hlines. by eexists.
Qed.

(** The translation loop runs to its end when the service answers and
    the starts are finite, with one request per chunk. *)
Lemma translate_chunks_total (cl : Client) (target_lang context : string)
    (total_chunks : Z) (chunks : list (list Segment)) :
  answers cl → Forall (Forall finite_start) chunks →
  ∀ i all_translated steps,
    Forall finite_start all_translated →
    ∃ all' steps' reqs,
      Translate.translate_chunks cl target_lang context total_chunks i chunks
        all_translated steps = inl (all', steps')
      ∧ Forall finite_start all'
      ∧ mapM (λ c, Translate.translate_request c target_lang context) chunks
        = Some reqs
      ∧ requests steps' = requests steps ++ reqs.
Proof.
  intros Hcl. induction 1 as [|chunk chunks Hchunk _ IH]; intros i all steps Hall.
  - exists all, steps, []. by rewrite app_nil_r.
  - assert (is_Some (Translate.translate_request chunk target_lang context))
      as [req Hreq].
    { unfold Translate.translate_request.
      destruct (text_block_finite chunk Hchunk) as [block ->]. by eexists. }
    cbn [Translate.translate_chunks mapM].
    unfold Translate.translate_chunk. rewrite Hreq.
    destruct (Hcl i req) as [a ->].
    edestruct (IH (S i)) as (all' & steps' & reqs & Hrun & Hfin & Hreqs & Htrace);
      [|rewrite Hrun].
    { apply Forall_app. split; [exact Hall|].
      by apply pair_translation_finite. }
    exists all', steps', (req :: reqs). split; [done|]. split; [done|].
    rewrite Hreqs. split; [done|].
    rewrite Htrace, !requests_app. cbn. by rewrite <- app_assoc.
Qed.

(** C9. In both transformation scripts a missing source transcript ends
    the run at once: one diagnostic is printed, the exit code is 1 and no
    call has been made.  A missing metadata file does not: the editing
    script runs exactly as with a metadata file holding the empty object,
    the translation script sends one request per chunk with the context
    [Episode <number>], and both return normally when the key is set,
    the service answers and the starts are finite numbers. *)
Theorem missing_inputs (w : World) (episode_num : string) :
  argv w !! 1%nat = Some episode_num →
  let lang := flag_value (argv w) "--lang" "es" in
  let edit_source :=
    path_join [episode_dir w episode_num; "transcript." +:+ lang +:+ ".json"] in
  let translate_source :=
    path_join [episode_dir w episode_num; "transcript.en.json"] in
  (transcripts w !! edit_source = None →
     Edit.main w =
     {| trace := [Print ("Error: No " +:+ lang +:+ " transcript found at "
                         +:+ edit_source)];
        exit := SysExit 1 |})
  ∧ (transcripts w !! translate_source = None →
     Translate.main w =
     {| trace := [Print ("Error: No English transcript found at "
                         +:+ translate_source);
                  Print "Run fetch-transcript.py first."];
        exit := SysExit 1 |})
  ∧ (metas w !! meta_path w episode_num = None →
     Edit.main w
     = Edit.main (with_metas w (<[meta_path w episode_num := ∅]> (metas w)))
     ∧ (∀ segments,
          transcripts w !! edit_source = Some segments →
          Forall finite_start segments → api_key w = true → answers (client w) →
          exit (Edit.main w) = Returned)
     ∧ (∀ segments,
          transcripts w !! translate_source = Some segments →
          Forall finite_start segments → api_key w = true → answers (client w) →
          exit (Translate.main w) = Returned
          ∧ ∃ chunks,
              chunk_segments segments Translate.default_max_segments = Some chunks
              ∧ mapM (λ c, Translate.translate_request c
                             (flag_value (argv w) "--target" "es")
                             ("Episode " +:+ episode_num)) chunks
                = Some (requests (trace (Translate.main w))))).
Proof.
  intros Hargv lang edit_source translate_source.
  split; [|split].
  - intros Hsrc. unfold Edit.main. rewrite Hargv.
    fold lang. unfold edit_source, episode_dir in Hsrc. by rewrite Hsrc.
  - intros Hsrc. unfold Translate.main. rewrite Hargv.
    unfold translate_source, episode_dir in Hsrc. by rewrite Hsrc.
  - intros Hmeta. unfold meta_path, episode_dir in Hmeta. split; [|split].
    + unfold Edit.main, with_metas, meta_path, episode_dir.
      cbn [argv project_root transcripts metas htmls api_key client].
      rewrite Hargv. rewrite Hmeta, lookup_insert_eq. done.
    + intros segments Hsrc Hfin Hkey Hcl. unfold Edit.main. rewrite Hargv.
      fold lang. unfold edit_source, episode_dir in Hsrc. rewrite Hsrc, Hkey.
      cbn [negb].
      destruct (chunks_finite segments Edit.default_max_segments ltac:(done) Hfin)
        as (chunks & -> & Hchunks).
      edestruct (process_chunks_total (client w)) as [st' ->]; [done..|].
      done.
    + intros segments Hsrc Hfin Hkey Hcl. unfold Translate.main. rewrite Hargv.
      unfold translate_source, episode_dir in Hsrc. rewrite Hsrc, Hkey.
      cbn [negb].
      destruct (chunks_finite segments Translate.default_max_segments ltac:(done) Hfin)
        as (chunks & Hc & Hchunks).
      rewrite Hc, Hmeta.
      cbn [Translate.episode_context].
      edestruct (translate_chunks_total (client w)) as
        (all' & steps' & reqs & -> & Hall & Hreqs & Htrace); [done..| |].
      { constructor. }
      destruct (markdown_finite all' Hall) as [md ->].
      split; [done|]. exists chunks. split; [done|].
      rewrite Hreqs. f_equal. cbn [trace].
      rewrite !requests_app, Htrace, !requests_app.
      cbn [requests omap list_omap app]. by rewrite !app_nil_r.
Qed.

Lemma missing_inputs_witness :
  exit (Edit.main empty_world) = SysExit 1
  ∧ requests (trace (Edit.main empty_world)) = []
  ∧ exit (Translate.main empty_world) = SysExit 1
  ∧ requests (trace (Translate.main empty_world)) = []
  ∧ exit (Edit.main no_meta_world) = Returned
  ∧ exit (Translate.main no_meta_world) = Returned.
Proof.
  destruct (missing_inputs empty_world "66" eq_refl) as (He & Ht & _).
  destruct (missing_inputs no_meta_world "66" eq_refl) as (_ & _ & Hm).
  cbv zeta in He, Ht, Hm.
  rewrite He, Ht by (vm_compute; reflexivity).
  destruct Hm as (_ & Hedit & Htrans); [vm_compute; reflexivity|].
  assert (Hfin : Forall finite_start pause_example).
  { repeat (apply List.Forall_cons; [eexists; vm_compute; reflexivity|]).
    apply List.Forall_nil. }
  assert (Hcl : answers (client no_meta_world)) by (intros n req; by eexists).
  do 4 (split; [reflexivity|]). split.
  - apply (Hedit pause_example); [vm_compute; reflexivity|done..].
  - apply (Htrans pause_example); [vm_compute; reflexivity|done..].
Defined.

End Inputs.

(** * Further properties of the code *)

(** ** The merger: sizes, closed paragraphs, fixed points *)

Section MergeMore.

Import Fetch Spec.
Local Open Scope float_scope.

Variables target_duration pause_threshold : float.

Local Abbreviation merge l :=
  (merge_into_paragraphs l target_duration pause_threshold).

Lemma merge_length_from (rest : list Segment) :
  ∀ current, (1 ≤ length (merge (current :: rest)) ≤ S (length rest))%nat.
Proof.
  induction rest as [|seg rest IH]; intros current.
  - rewrite merge_singleton. cbn. lia.
  - rewrite merge_cons_cons. destruct (should_break _ _ current seg).
    + specialize (IH seg). cbn [length] in *. lia.
    + specialize (IH (extend current seg)). cbn [length] in *. lia.
Qed.

(** X1. The merger returns at most as many segments as it was given, and
    at least one when it was given any: it never adds a segment and never
    empties a transcript. *)
Theorem merge_length (segments : list Segment) :
  (length (merge segments) ≤ length segments)%nat
  ∧ (segments = [] ↔ merge segments = []).
Proof.
  destruct segments as [|first rest]; [by split|].
  pose proof (merge_length_from rest first) as H. cbn [length]. split; [lia|].
  split; [done|]. intros E. rewrite E in H. cbn in H. lia.
Qed.

Lemma merge_closed_from (rest : list Segment) :
  ∀ current (i : nat) (m : Segment),
    merge (current :: rest) !! i = Some m →
    (S i < length (merge (current :: rest)))%nat →
    long_enough target_duration m = true.
Proof.
  induction rest as [|seg rest IH]; intros current i m.
  - rewrite merge_singleton. cbn [length]. lia.
  - rewrite merge_cons_cons.
    destruct (should_break _ _ current seg) eqn:Hbrk.
    + destruct i as [|i]; cbn [lookup list_lookup length].
      * intros [= <-] _. unfold should_break in Hbrk. unfold long_enough.
        destruct (PrimFloat.leb target_duration (duration current));
          [by rewrite orb_true_r|].
        rewrite orb_false_r in Hbrk. apply andb_true_iff in Hbrk as [_ ->]. done.
      * intros Hm Hlen. apply (IH seg i m Hm). lia.
    + apply IH.
Qed.

(** X2. Every paragraph the merger closes, that is every output segment
    but the last, has a duration of at least 10 seconds or of at least
    the target: only the last paragraph of a transcript can be short. *)
Theorem merge_closed_long_enough (segments : list Segment) (i : nat)
    (m : Segment) :
  merge segments !! i = Some m →
  (S i < length (merge segments))%nat →
  long_enough target_duration m = true.
Proof.
  destruct segments as [|first rest]; [done|]. apply merge_closed_from.
Qed.

Lemma merge_fixed_from (rest : list Segment) :
  ∀ current,
    merge (current :: rest) = current :: rest
    ↔ all_boundaries target_duration pause_threshold (current :: rest) = true.
Proof.
  induction rest as [|seg rest IH]; intros current.
  - by rewrite merge_singleton.
  - rewrite merge_cons_cons.
    change (all_boundaries target_duration pause_threshold (current :: seg :: rest))
      with (should_break target_duration pause_threshold current seg
            && all_boundaries target_duration pause_threshold (seg :: rest)).
    destruct (should_break _ _ current seg).
    + rewrite andb_true_l. destruct (IH seg) as [IH1 IH2]. split.
      * intros [= E]. by apply IH1.
      * intros E. by rewrite (IH2 E).
    + rewrite andb_false_l. split; [|done]. intros E.
      pose proof (merge_length_from rest (extend current seg)) as H.
      rewrite E in H. cbn [length] in H. lia.
Qed.

(** X3. The merger returns its input unchanged exactly when every segment
    but the last is followed by a boundary (a pause after 10 seconds, or
    the target reached); any other input comes back with fewer segments. *)
Theorem merge_fixed_point (segments : list Segment) :
  (merge segments = segments
   ↔ all_boundaries target_duration pause_threshold segments = true)
  ∧ (all_boundaries target_duration pause_threshold segments = false →
     (length (merge segments) < length segments)%nat).
Proof.
  destruct segments as [|first rest]; [done|].
  split; [apply merge_fixed_from|].
  revert first. induction rest as [|seg rest IH]; intros first; [done|].
  rewrite merge_cons_cons.
  change (all_boundaries target_duration pause_threshold (first :: seg :: rest))
    with (should_break target_duration pause_threshold first seg
          && all_boundaries target_duration pause_threshold (seg :: rest)).
  destruct (should_break _ _ first seg).
  - rewrite andb_true_l. intros H. specialize (IH seg H). cbn [length] in *. lia.
  - intros _. pose proof (merge_length_from rest (extend first seg)) as H.
    cbn [length] in *. lia.
Qed.

End MergeMore.

Lemma merge_closed_long_enough_witness :
  Spec.long_enough 30 {| start := 0; duration := 12; text := "a b c" |} = true.
Proof.
  apply (merge_closed_long_enough 30 1.5 Spec.pause_example 0).
  - vm_compute. reflexivity.
  - vm_compute. lia.
Defined.

(** ** The window planner: count, positions, sizes that are not positive *)

Section WindowsMore.

Import Spec.

Context {A : Type}.

Lemma range_len_ceil (n m : Z) : 0 ≤ n → 1 ≤ m → range_len n m = (n + m - 1) / m.
Proof.
  intros Hn Hm. unfold range_len. destruct (Z.ltb_spec 0 n).
  - replace (n + m - 1) with ((n - 1) + 1 * m) by lia.
    by rewrite Z.div_add by lia.
  - replace n with 0 by lia. by rewrite Z.div_small by lia.
Qed.

Lemma chunk_at_lookup (m : nat) (l : list A) (k r : nat) :
  (r < m)%nat → chunk_at m l k !! r = l !! (k * m + r)%nat.
Proof.
  intros Hr. unfold chunk_at. rewrite lookup_take_lt by done.
  by rewrite lookup_drop.
Qed.

(** X4. For a positive size there are [ceil(n / max_segments)] windows,
    and the segment at position [j] of the input is the element
    [j mod max_segments] of window [j div max_segments]; past the end of
    the input there is no such element. *)
Theorem chunk_segments_positions (segments : list A) (max_segments : Z) :
  1 ≤ max_segments →
  ∃ chunks : list (list A),
    chunk_segments segments max_segments = Some chunks
    ∧ Z.of_nat (length chunks)
      = (Z.of_nat (length segments) + max_segments - 1) / max_segments
    ∧ ∀ j : nat,
        chunks !! (j / Z.to_nat max_segments)%nat
          ≫= (λ c, c !! (j mod Z.to_nat max_segments)%nat)
        = segments !! j.
Proof.
  intros Hm. eexists. split; [by apply chunk_segments_chunk_at|].
  pose proof (range_len_nonneg (Z.of_nat (length segments)) max_segments Hm) as Hc.
  split.
  - rewrite length_map, length_seq, Z2Nat.id by done.
    apply range_len_ceil; lia.
  - intros j. set (m := Z.to_nat max_segments).
    assert (Hm' : (0 < m)%nat) by lia.
    pose proof (Nat.div_mod_eq j m) as Hj.
    pose proof (Nat.mod_upper_bound j m ltac:(lia)) as Hr.
    rewrite list_lookup_fmap.
    destruct (decide (j / m < Z.to_nat (range_len (Z.of_nat (length segments))
                                          max_segments))%nat) as [Hlt|Hge].
    + rewrite lookup_seq_lt by done. cbn.
      rewrite chunk_at_lookup by done. f_equal. lia.
    + rewrite lookup_seq_ge by lia. cbn. symmetry. apply lookup_ge_None.
      rewrite range_len_ceil in Hge by lia.
      assert ((Z.of_nat (length segments) + max_segments - 1) / max_segments
              ≤ Z.of_nat (j / m)) by lia.
      pose proof (Z.mul_succ_div_gt (Z.of_nat (length segments) + max_segments - 1)
                    max_segments ltac:(lia)).
      nia.
Qed.


(** X5. A size of zero makes [range] raise; a negative size makes the
    loop run over nothing, so that the function returns no window at all
    and every segment is left out. *)
Theorem chunk_segments_not_positive (segments : list A) (max_segments : Z) :
  chunk_segments segments 0 = None
  ∧ (max_segments < 0 → chunk_segments segments max_segments = Some []).
Proof.
  split; [done|]. intros Hm. unfold chunk_segments, Py.range.
  destruct (Z.eqb_spec max_segments 0); [lia|].
  destruct (Z.ltb_spec 0 max_segments); [lia|].
  destruct (Z.ltb_spec (Z.of_nat (length segments)) 0); [lia|]. done.
Qed.


End WindowsMore.

Lemma chunk_segments_positions_witness :
  ∃ chunks : list (list nat),
    chunk_segments [10; 11; 12; 13; 14]%nat 2 = Some chunks
    ∧ Z.of_nat (length chunks) = 3
    ∧ chunks !! 2%nat ≫= (λ c, c !! 0%nat) = Some 14%nat.
Proof.
  destruct (chunk_segments_positions [10; 11; 12; 13; 14]%nat 2 ltac:(lia))
    as (chunks & Hrun & Hlen & Hpos).
  exists chunks. split; [exact Hrun|]. split; [exact Hlen|].
  exact (Hpos 4%nat).
Defined.

Lemma chunk_segments_not_positive_witness :
  chunk_segments [1; 2; 3]%nat (-2) = Some [].
Proof.
  apply (chunk_segments_not_positive [1; 2; 3]%nat (-2)). lia.
Defined.

(** ** Strings: one character as separator *)

Section Characters.

Import Spec.

Lemma prefix_char (c : ascii) (s : string) :
  String.prefix (String c EmptyString) s
  = match s with String a _ => Ascii.eqb c a | EmptyString => false end.
Proof.
  destruct s as [|a s]; [done|]. cbn.
  destruct (Ascii.ascii_dec c a) as [->|Hne].
  - rewrite Ascii.eqb_refl. by destruct s.
  - symmetry. by apply Ascii.eqb_neq.
Qed.

Lemma find_char (c : ascii) (s : string) :
  is_Some (Py.find (String c EmptyString) s) ↔ has_char c s = true.
Proof.
  induction s as [|a s IH].
  - cbn. split; [by intros [? ?]|done].
  - cbn [Py.find has_char]. rewrite prefix_char.
    rewrite (Ascii.eqb_sym c a). destruct (Ascii.eqb a c); [by split; eauto|].
    rewrite orb_false_l, <- IH. rewrite fmap_is_Some. done.
Qed.

Lemma contains_char (c : ascii) (s : string) :
  Py.contains (String c EmptyString) s = has_char c s.
Proof.
  unfold Py.contains. destruct (has_char c s) eqn:E.
  - apply bool_decide_eq_true, find_char, E.
  - apply bool_decide_eq_false. rewrite find_char, E. done.
Qed.

Lemma has_char_app (c : ascii) (a b : string) :
  has_char c (a +:+ b) = has_char c a || has_char c b.
Proof.
  induction a as [|x a IH]; [done|].
  change (String x a +:+ b) with (String x (a +:+ b)). cbn [has_char].
  by rewrite IH, orb_assoc.
Qed.

(** Splitting once at the first occurrence. *)
Lemma split1_first (c : ascii) (a b : string) :
  has_char c a = false →
  Py.split1 c (a +:+ String c b) = [a; b].
Proof.
  induction a as [|x a IH]; intros Ha.
  - change (EmptyString +:+ String c b) with (String c b).
    cbn [Py.split1]. by rewrite Ascii.eqb_refl.
  - cbn [has_char] in Ha. apply orb_false_iff in Ha as [Hx Ha].
    change (String x a +:+ String c b) with (String x (a +:+ String c b)).
    cbn [Py.split1]. rewrite Hx, (IH Ha). done.
Qed.

(** A string in which [c] occurs, cut at its first occurrence. *)
Lemma has_char_cut (c : ascii) (s : string) :
  has_char c s = true →
  ∃ a b, s = a +:+ String c b ∧ has_char c a = false.
Proof.
  induction s as [|x s IH]; [done|]. cbn [has_char].
  destruct (Ascii.eqb_spec x c) as [->|Hne].
  - intros _. by exists EmptyString, s.
  - rewrite orb_false_l. intros Hs. destruct (IH Hs) as (a & b & -> & Ha).
    exists (String x a), b. split; [done|]. cbn [has_char].
    by rewrite (proj2 (Ascii.eqb_neq x c) Hne), Ha.
Qed.

End Characters.

(** ** Translated lines, flags, the context instruction *)

Section SmallParsers.

Import Spec.

(** X6. The text kept from a translated line is the line itself when it
    has no closing bracket, and otherwise what follows its first closing
    bracket, stripped: a timestamp in front is removed, and so is
    anything else that stands before the first bracket. *)
Theorem line_text_cases (line : string) :
  (has_char "]" line = false → Translate.line_text line = line)
  ∧ (∀ a b, has_char "]" a = false →
       Translate.line_text (a +:+ "]" +:+ b) = Py.strip b).
Proof.
  unfold Translate.line_text. split.
  - intros H. by rewrite contains_char, H.
  - intros a b Ha. rewrite contains_char, has_char_app.
    change ("]" +:+ b) with (String "]" b). cbn [has_char].
    rewrite Ascii.eqb_refl, orb_true_r.
    by rewrite split1_first.
Qed.

Lemma line_text_cases_witness :
  Translate.line_text "[1:02:05] hola a todos " = "hola a todos"
  ∧ Translate.line_text ("[0:00]" +:+ nbsp +:+ "hola") = "hola".
Proof.
  destruct (line_text_cases EmptyString) as [_ H]. split.
  - exact (H "[1:02:05" " hola a todos " eq_refl).
  - exact (H "[0:00" (nbsp +:+ "hola") eq_refl).
Defined.

Lemma index_of_first (flag : string) (pre rest : list string) :
  flag ∉ pre → index_of flag (pre ++ flag :: rest) = Some (length pre).
Proof.
  induction pre as [|x pre IH]; intros Hpre.
  - cbn. by rewrite String.eqb_refl.
  - apply not_elem_of_cons in Hpre as [Hx Hpre]. cbn [app index_of].
    rewrite (proj2 (String.eqb_neq x flag)) by done.
    by rewrite IH.
Qed.

Lemma index_of_absent (flag : string) (args : list string) :
  flag ∉ args → index_of flag args = None.
Proof.
  induction args as [|x args IH]; intros H; [done|].
  apply not_elem_of_cons in H as [Hx H]. cbn [index_of].
  rewrite (proj2 (String.eqb_neq x flag)) by done. by rewrite IH.
Qed.

(** X7. A flag on the command line takes the word after its first
    occurrence as its value, whatever that word is; a flag that is absent,
    or that is the last word, leaves the default. *)
Theorem flag_value_cases (flag default : string) (pre post : list string)
    (value : string) :
  flag ∉ pre →
  flag_value (pre ++ flag :: value :: post) flag default = value
  ∧ flag_value (pre ++ [flag]) flag default = default
  ∧ flag_value pre flag default = default.
Proof.
  intros Hpre. unfold flag_value. split; [|split].
  - rewrite index_of_first by done.
    assert ((pre ++ flag :: value :: post) !! S (length pre) = Some value) as ->;
      [|done].
    rewrite lookup_app_r by lia.
    by replace (S (length pre) - length pre)%nat with 1%nat by lia.
  - rewrite index_of_first by done.
    rewrite lookup_ge_None_2; [done|]. rewrite length_app. cbn. lia.
  - by rewrite index_of_absent.
Qed.

Lemma flag_value_cases_witness :
  flag_value ["edit-transcript.py"; "65"; "--lang"; "en"; "--lang"; "es"]
             "--lang" "es" = "en".
Proof.
  apply (flag_value_cases "--lang" "es" ["edit-transcript.py"; "65"]
           ["--lang"; "es"] "en").
  intros H. repeat (apply elem_of_cons in H as [H|H]; [discriminate H|]).
  by apply elem_of_nil in H.
Defined.

End SmallParsers.

(** ** The editing run as a whole *)

Section EditRun.

Import Edit Spec.

(** X8. The context instruction is absent for the first window and
    present for every later one, titles found or not; its non-empty
    lines are the header and then exactly the titles extracted from the
    fragments received so far, in order. *)
Theorem context_instruction_lines (html : string) (fragments : list string) :
  context_instruction (carried []) = EmptyString
  ∧ nonempty_lines (context_instruction (carried (html :: fragments)))
    = titles_header :: concat (map section_titles (html :: fragments)).
Proof.
  split; [done|].
  rewrite <- nonempty_lines_carried. unfold context_instruction.
  rewrite carried_cons at 1. rewrite truthy_app_nl.
  generalize (carried (html :: fragments)). intros previous.
  change (Py.nl +:+ Py.nl
          +:+ "Here are the section titles already generated in previous chunks "
          +:+ "(do NOT repeat these, create new section titles):"
          +:+ Py.nl +:+ previous)
    with (Py.nl +:+ (Py.nl +:+ (titles_header +:+ Py.nl +:+ previous))).
  unfold nonempty_lines. rewrite !split_blank_line.
  rewrite split_one_line_app by (apply one_line_has_char; by vm_compute).
  done.
Qed.

Lemma writes_app (t u : list Event) : writes (t ++ u) = writes t ++ writes u.
Proof. apply List.filter_app. Qed.

(** The loop writes nothing. *)
Lemma process_chunks_writes cl meta lang reference_html total_chunks
    (chunks : list (list Segment)) :
  ∀ i st,
    match process_chunks cl meta lang reference_html total_chunks i chunks st with
    | inl st' => writes (steps st') = writes (steps st)
    | inr t => writes t = writes (steps st)
    end.
Proof.
  induction chunks as [|chunk chunks IH]; intros i st; [done|].
  cbn [process_chunks]. unfold process_chunk.
  destruct (edit_request chunk _ _ _ _ _ _) as [req|].
  2:{ rewrite writes_app. cbn. by rewrite app_nil_r. }
  destruct (cl i req) as [a|].
  - match goal with
    | |- context [process_chunks _ _ _ _ _ _ _ ?s] => specialize (IH (S i) s)
    end.
    cbn [steps] in IH. rewrite writes_app in IH. cbn in IH.
    rewrite app_nil_r in IH. exact IH.
  - rewrite writes_app. cbn. by rewrite app_nil_r.
Qed.

Lemma carrier_inv_start cl meta lang reference_html total_chunks
    (t0 : list Event) :
  requests t0 = [] → responses t0 = [] →
  carrier_inv cl meta lang reference_html total_chunks []
    {| all_html_parts := []; previous_sections := EmptyString; steps := t0 |}.
Proof.
  intros Hreq Hans.
  split; cbn [steps previous_sections all_html_parts];
    rewrite ?Hreq, ?Hans; try done.
  split; intros i x; by rewrite ?Hreq, ?Hans.
Qed.

(** What a run of the loop from the start leaves, for a trace [t0]
    without calls or writes before it. *)
Lemma process_chunks_from_start cl meta lang reference_html total_chunks
    (chunks : list (list Segment)) (t0 : list Event) :
  requests t0 = [] → responses t0 = [] → writes t0 = [] →
  match process_chunks cl meta lang reference_html total_chunks 0 chunks
          {| all_html_parts := []; previous_sections := EmptyString;
             steps := t0 |} with
  | inl st =>
      all_html_parts st = responses (steps st)
      ∧ length (requests (steps st)) = length chunks
      ∧ length (responses (steps st)) = length chunks
      ∧ writes (steps st) = []
  | inr t => writes t = [] ∧ (length (responses t) < length chunks)%nat
  end.
Proof.
  intros Hreq Hans Hw.
  pose proof (process_chunks_inv cl meta lang reference_html total_chunks
                chunks [] _ (carrier_inv_start cl meta lang reference_html
                               total_chunks t0 Hreq Hans)) as Hinv.
  pose proof (process_chunks_writes cl meta lang reference_html total_chunks
                chunks 0 {| all_html_parts := []; previous_sections := EmptyString;
                            steps := t0 |}) as Hwr.
  cbn [length app] in Hinv. cbn [steps] in Hwr.
  destruct (process_chunks _ _ _ _ _ _ _ _) as [st|t].
  - destruct Hinv as [Hn1 Hn2 _ Hparts _]. rewrite Hwr. done.
  - destruct Hinv as [_ Hlt]. by rewrite Hwr.
Qed.

(** X9. The editing script writes its HTML file only in a run that
    returns normally, once, and with the answers of the service joined by
    blank lines in the order of the windows; a run that stops (usage,
    missing transcript, missing key, an exception of a call or of
    [format_time]) has written nothing. *)
Theorem edit_main_writes (w : World) :
  match exit (Edit.main w) with
  | Returned =>
      ∃ path,
        writes (trace (Edit.main w))
        = [WriteFile path
             (Py.join (Py.nl +:+ Py.nl) (responses (trace (Edit.main w))))]
  | _ => writes (trace (Edit.main w)) = []
  end.
Proof.
  unfold Edit.main.
  destruct (argv w !! 1%nat) as [episode_num|]; [|done].
  destruct (transcripts w !! _) as [segments|]; [|done].
  destruct (api_key w); [|done]. cbn [negb].
  destruct (chunk_segments segments default_max_segments) as [chunks|]; [|done].
  match goal with
  | |- context [process_chunks _ _ _ _ _ _ _ {| steps := ?t |}] =>
      pose proof (process_chunks_from_start (client w)
                    (default ∅ (metas w !! path_join
                       [path_join [project_root w; "content"; "episodes"; episode_num];
                        "meta.json"]))
                    (flag_value (argv w) "--lang" "es")
                    (load_reference_html w (flag_value (argv w) "--reference" "66")
                       (flag_value (argv w) "--lang" "es"))
                    (Z.of_nat (length chunks)) chunks t
                    eq_refl eq_refl eq_refl) as Hrun
  end.
  destruct (process_chunks _ _ _ _ _ _ _ _) as [st|t]; cbn [exit trace].
  - destruct Hrun as (Hparts & _ & _ & Hw). eexists.
    rewrite writes_app, Hw, responses_app, Hparts. cbn. by rewrite app_nil_r.
  - apply Hrun.
Qed.

Lemma chunk_segments_count {A} (segments : list A) (max_segments : Z)
    (chunks : list (list A)) :
  1 ≤ max_segments →
  chunk_segments segments max_segments = Some chunks →
  Z.of_nat (length chunks)
  = (Z.of_nat (length segments) + max_segments - 1) / max_segments.
Proof.
  intros Hm. rewrite chunk_segments_chunk_at by done. intros [= <-].
  rewrite length_map, length_seq, Z2Nat.id
    by (apply range_len_nonneg; lia).
  apply range_len_ceil; lia.
Qed.

(** X10. When the editing script returns normally, the transcript of the
    chosen language was there, the key was set, and the service was
    called once per window, [ceil(n / 40)] times for [n] segments, and
    answered every call. *)
Theorem edit_main_returned (w : World) :
  exit (Edit.main w) = Returned →
  ∃ episode_num segments,
    argv w !! 1%nat = Some episode_num
    ∧ transcripts w !! path_join
        [episode_dir w episode_num;
         "transcript." +:+ flag_value (argv w) "--lang" "es" +:+ ".json"]
      = Some segments
    ∧ api_key w = true
    ∧ Z.of_nat (length (requests (trace (Edit.main w))))
      = (Z.of_nat (length segments) + 39) / 40
    ∧ length (responses (trace (Edit.main w)))
      = length (requests (trace (Edit.main w))).
Proof.
  unfold Edit.main, episode_dir.
  destruct (argv w !! 1%nat) as [episode_num|]; [|done].
  destruct (transcripts w !! _) as [segments|] eqn:Hsrc; [|done].
  destruct (api_key w); [|done]. cbn [negb].
  destruct (chunk_segments segments default_max_segments) as [chunks|] eqn:Hc;
    [|done].
  apply chunk_segments_count in Hc; [|done].
  match goal with
  | |- context [process_chunks _ _ _ _ _ _ _ {| steps := ?t |}] =>
      pose proof (process_chunks_from_start (client w)
                    (default ∅ (metas w !! path_join
                       [path_join [project_root w; "content"; "episodes"; episode_num];
                        "meta.json"]))
                    (flag_value (argv w) "--lang" "es")
                    (load_reference_html w (flag_value (argv w) "--reference" "66")
                       (flag_value (argv w) "--lang" "es"))
                    (Z.of_nat (length chunks)) chunks t
                    eq_refl eq_refl eq_refl) as Hrun
  end.
  destruct (process_chunks _ _ _ _ _ _ _ _) as [st|t]; cbn [exit trace]; [|done].
  intros _. destruct Hrun as (_ & Hn1 & Hn2 & _).
  exists episode_num, segments. split; [done|]. split; [done|]. split; [done|].
  rewrite requests_app, responses_app.
  change (requests [WriteFile _ _; Print _; Print _]) with (@nil Request).
  change (responses [WriteFile _ _; Print _; Print _]) with (@nil string).
  rewrite !app_nil_r, Hn1, Hn2. split; [|done]. rewrite Hc.
  unfold default_max_segments. f_equal. lia.
Qed.

Lemma edit_main_returned_witness :
  Z.of_nat (length (requests (trace (Edit.main no_meta_world)))) = 1
  ∧ length (responses (trace (Edit.main no_meta_world))) = 1%nat.
Proof.
  destruct (edit_main_returned no_meta_world) as
    (ep & segs & Hep & Hsrc & _ & Hcalls & Hans).
  - vm_compute. reflexivity.
  - injection Hep as <-. vm_compute in Hsrc. injection Hsrc as <-.
    rewrite Hans. split; [exact Hcalls|].
    apply Nat2Z.inj. exact Hcalls.
Defined.

End EditRun.

(** ** The translation run as a whole *)

Section TranslateRun.

Import Translate Spec.

Lemma text_block_Some_finite (segments : list Segment) (block : string) :
  text_block segments = Some block → Forall finite_start segments.
Proof.
  revert block. induction segments as [|seg segments IH]; intros block;
    [constructor|].
  cbn [text_block]. unfold format_time at 1.
  destruct (Py.floor_float (start seg)) as [fl|] eqn:Hfl; [|done].
  cbn [mbind option_bind].
  destruct (text_block segments) as [tl|]; [|done]. intros _.
  constructor; [by eexists|by eapply IH].
Qed.

Lemma pair_translation_codes (segments : list Segment) (translated : string) :
  map time_code (pair_translation segments translated)
    `sublist_of` map time_code segments.
Proof.
  unfold pair_translation.
  generalize (Py.split Py.nl_char (Py.strip translated)). intros lines.
  revert lines. induction segments as [|seg segments IH]; intros [|l ls];
    cbn [zip_with map]; try apply sublist_nil_l.
  apply sublist_skip, IH.
Qed.

(** What the translation loop keeps: it writes nothing, makes one call
    per chunk, and adds to [all_translated] segments with the time codes
    of the chunks, in order, and a finite start. *)
Lemma translate_chunks_inv (cl : Client) (target_lang context : string)
    (total_chunks : Z) (chunks : list (list Segment)) :
  ∀ i all_translated steps,
    match translate_chunks cl target_lang context total_chunks i chunks
            all_translated steps with
    | inl (all', steps') =>
        writes steps' = writes steps
        ∧ length (requests steps') = (length (requests steps) + length chunks)%nat
        ∧ length (responses steps') = (length (responses steps) + length chunks)%nat
        ∧ (∃ added,
             all' = all_translated ++ added
             ∧ Forall finite_start added
             ∧ map time_code added `sublist_of` map time_code (concat chunks))
    | inr t => writes t = writes steps
    end.
Proof.
  induction chunks as [|chunk chunks IH]; intros i all steps.
  - cbn. split; [done|]. split; [lia|]. split; [lia|].
    exists []. by rewrite app_nil_r.
  - cbn [translate_chunks]. unfold translate_chunk.
    destruct (translate_request chunk target_lang context) as [req|] eqn:Hreq.
    2:{ rewrite !writes_app. cbn. by rewrite app_nil_r. }
    assert (Hfin : Forall finite_start chunk).
    { unfold translate_request in Hreq.
      destruct (text_block chunk) as [block|] eqn:Hb; [|done].
      by eapply text_block_Some_finite. }
    destruct (cl i req) as [a|].
    2:{ rewrite !writes_app. cbn. by rewrite app_nil_r. }
    match goal with
    | |- context [translate_chunks _ _ _ _ _ _ ?al ?st] =>
        specialize (IH (S i) al st)
    end.
    destruct (translate_chunks _ _ _ _ _ _ _ _) as [[all' steps']|t].
    + destruct IH as (Hw & Hn1 & Hn2 & added & -> & Hadd & Hsub).
      rewrite !writes_app, !requests_app, !responses_app, !length_app in *.
      cbn in Hw, Hn1, Hn2. rewrite !app_nil_r in Hw.
      split; [done|]. split; [cbn [length]; lia|]. split; [cbn [length]; lia|].
      exists (pair_translation chunk a ++ added).
      split; [by rewrite app_assoc|]. split.
      * apply Forall_app. split; [by apply pair_translation_finite|done].
      * cbn [concat]. rewrite !map_app.
        apply sublist_app; [apply pair_translation_codes|done].
    + rewrite !writes_app in IH. cbn in IH. by rewrite !app_nil_r in IH.
Qed.

(** X11. The translation script writes only in a run that returns
    normally: then it writes the JSON file and the Markdown rendering of
    the same translated segments, whose time codes are time codes of the
    source transcript in their order (some may be missing, none is new or
    moved).  A run that stops has written nothing; in particular the
    Markdown step cannot fail once the JSON file is written. *)
Theorem translate_main_writes (w : World) :
  match exit (Translate.main w) with
  | Returned =>
      ∃ episode_num segments json_path md_path all_translated md,
        argv w !! 1%nat = Some episode_num
        ∧ transcripts w !! path_join
            [episode_dir w episode_num; "transcript.en.json"] = Some segments
        ∧ writes (trace (Translate.main w))
          = [WriteJson json_path all_translated; WriteFile md_path md]
        ∧ markdown all_translated = Some md
        ∧ map time_code all_translated `sublist_of` map time_code segments
        ∧ (length all_translated ≤ length segments)%nat
  | _ => writes (trace (Translate.main w)) = []
  end.
Proof.
  unfold Translate.main, episode_dir.
  destruct (argv w !! 1%nat) as [episode_num|]; [|done].
  destruct (transcripts w !! _) as [segments|] eqn:Hsrc; [|done].
  destruct (api_key w); [|done]. cbn [negb].
  destruct (chunk_segments segments default_max_segments) as [chunks|] eqn:Hc;
    [|done].
  destruct (chunk_segments_concat segments default_max_segments ltac:(done))
    as (chunks' & Hc' & Hcat).
  rewrite Hc in Hc'. injection Hc' as <-.
  match goal with
  | |- context [translate_chunks ?cl ?tl ?ctx ?tot 0 chunks [] ?t] =>
      pose proof (translate_chunks_inv cl tl ctx tot chunks 0 [] t) as Hrun
  end.
  destruct (translate_chunks _ _ _ _ _ _ _ _) as [[all' steps']|t];
    cbn [exit trace]; [|exact Hrun].
  destruct Hrun as (Hw & _ & _ & added & -> & Hfin & Hsub).
  cbn [app] in *. rewrite Hcat in Hsub.
  destruct (markdown_finite added Hfin) as [md Hmd]. rewrite Hmd.
  cbn [exit trace].
  eexists episode_num, segments, _, _, added, md.
  split; [done|]. split; [done|]. split.
  - rewrite !writes_app, Hw. reflexivity.
  - split; [done|]. split; [done|].
    apply sublist_length in Hsub. by rewrite !length_map in Hsub.
Qed.

(** X12. When the translation script returns normally the service was
    called once per window, [ceil(n / 50)] times for [n] segments, and
    answered every call. *)
Theorem translate_main_returned (w : World) :
  exit (Translate.main w) = Returned →
  ∃ episode_num segments,
    argv w !! 1%nat = Some episode_num
    ∧ transcripts w !! path_join
        [episode_dir w episode_num; "transcript.en.json"] = Some segments
    ∧ api_key w = true
    ∧ Z.of_nat (length (requests (trace (Translate.main w))))
      = (Z.of_nat (length segments) + 49) / 50
    ∧ length (responses (trace (Translate.main w)))
      = length (requests (trace (Translate.main w))).
Proof.
  unfold Translate.main, episode_dir.
  destruct (argv w !! 1%nat) as [episode_num|]; [|done].
  destruct (transcripts w !! _) as [segments|] eqn:Hsrc; [|done].
  destruct (api_key w); [|done]. cbn [negb].
  destruct (chunk_segments segments default_max_segments) as [chunks|] eqn:Hc;
    [|done].
  apply chunk_segments_count in Hc; [|done].
  match goal with
  | |- context [translate_chunks ?cl ?tl ?ctx ?tot 0 chunks [] ?t] =>
      pose proof (translate_chunks_inv cl tl ctx tot chunks 0 [] t) as Hrun
  end.
  destruct (translate_chunks _ _ _ _ _ _ _ _) as [[all' steps']|t];
    cbn [exit trace]; [|done].
  destruct Hrun as (_ & Hn1 & Hn2 & _).
  change (requests (_ ++ [Print _])) with (@nil Request) in Hn1.
  change (responses (_ ++ [Print _])) with (@nil string) in Hn2.
  cbn [length Nat.add] in Hn1, Hn2.
  destruct (markdown all') as [md|]; cbn [exit trace]; [|done].
  intros _. exists episode_num, segments.
  split; [done|]. split; [done|]. split; [done|].
  rewrite !requests_app, !responses_app.
  change (requests [WriteJson _ _; Print _]) with (@nil Request).
  change (requests [WriteFile _ _; Print _; Print _]) with (@nil Request).
  change (responses [WriteJson _ _; Print _]) with (@nil string).
  change (responses [WriteFile _ _; Print _; Print _]) with (@nil string).
  rewrite !app_nil_r, Hn1, Hn2. split; [|done]. rewrite Hc.
  unfold default_max_segments. f_equal. lia.
Qed.

Lemma translate_main_returned_witness :
  Z.of_nat (length (requests (trace (Translate.main no_meta_world)))) = 1.
Proof.
  destruct (translate_main_returned no_meta_world) as
    (ep & segs & Hep & Hsrc & _ & Hcalls & _).
  - vm_compute. reflexivity.
  - injection Hep as <-. vm_compute in Hsrc. injection Hsrc as <-.
    exact Hcalls.
Defined.

End TranslateRun.

(** ** [load_env] *)

Section LoadEnv.

Import Env Spec.

Lemma truthy_app_char_any (a : string) (c : ascii) (b : string) :
  Py.truthy_str (a +:+ String c b) = true.
Proof. by destruct a. Qed.

Lemma setenv_Some (environ : gmap string string) (key value : string) :
  settable (key, value) →
  setenv environ key value = Some (<[key := value]> environ).
Proof.
  intros (H1 & H2 & H3 & H4). cbn in *. unfold setenv.
  by rewrite H1, H2, H3, H4.
Qed.

Lemma setenv_None (environ : gmap string string) (key value : string) :
  ¬ settable (key, value) → setenv environ key value = None.
Proof.
  intros Hn. unfold setenv, settable in *. cbn in Hn.
  destruct (Py.truthy_str key); [|done].
  destruct (Py.contains "=" key); [done|].
  destruct (has_nul key); [done|].
  destruct (has_nul value); [done|].
  by destruct Hn.
Qed.

Lemma load_lines_None (lines : list string) :
  fold_left load_line lines None = None.
Proof. by induction lines. Qed.

(** The loop on a list of lines, by the assignments they make. *)
Lemma load_lines_spec (lines : list string) :
  ∀ environ : gmap string string,
    (is_Some (fold_left load_line lines (Some environ))
     ↔ Forall settable (omap parse_line lines))
    ∧ ∀ env',
        fold_left load_line lines (Some environ) = Some env' →
        ∀ key,
          env' !! key
          = match last_value key (omap parse_line lines) with
            | Some v => Some v
            | None => environ !! key
            end.
Proof.
  induction lines as [|raw lines IH]; intros environ.
  - cbn. split; [split; [constructor|by eexists]|]. by intros env' [= <-] key.
  - cbn [fold_left omap list_omap]. unfold load_line at 2 4. cbn [mbind option_bind].
    destruct (parse_line raw) as [[k v]|].
    + destruct (decide (settable (k, v))) as [Hs|Hn].
      * rewrite (setenv_Some _ _ _ Hs). destruct (IH (<[k := v]> environ)) as [IH1 IH2].
        split.
        -- rewrite IH1. split; [by constructor|].
           intros H. by apply Forall_cons in H as [_ H].
        -- intros env' Henv key. rewrite (IH2 env' Henv key). cbn [last_value].
           destruct (last_value key (omap parse_line lines)); [done|].
           destruct (String.eqb_spec k key) as [->|Hne].
           ++ by rewrite lookup_insert_eq.
           ++ by rewrite lookup_insert_ne.
      * rewrite (setenv_None _ _ _ Hn), load_lines_None. split.
        -- split; [by intros [? ?]|].
           intros H. by apply Forall_cons in H as [H _].
        -- done.
    + apply IH.
Qed.

(** X13. [load_env] leaves the environment alone when the key is already
    set, whatever the file says, and when there is no file.  Otherwise
    it applies every assignment of the file in order: it returns exactly
    when each of them is one the environment accepts, and then a
    variable has the value of the last line that assigns it, even if it
    was set before, and its old value if no line does. *)
Theorem load_env_spec (environ : gmap string string)
    (env_file : option string) (text value : string) :
  load_env (<[api_key_name := value]> environ) env_file
  = Some (<[api_key_name := value]> environ)
  ∧ load_env environ None = Some environ
  ∧ (environ !! api_key_name = None →
     (is_Some (load_env environ (Some text))
      ↔ Forall settable (assignments text))
     ∧ ∀ env',
         load_env environ (Some text) = Some env' →
         ∀ key,
           env' !! key
           = match last_value key (assignments text) with
             | Some v => Some v
             | None => environ !! key
             end).
Proof.
  unfold load_env. split; [|split].
  - rewrite bool_decide_eq_true_2; [done|]. rewrite lookup_insert_eq. by eexists.
  - by destruct (bool_decide _).
  - intros Hkey. rewrite bool_decide_eq_false_2 by (rewrite Hkey; by intros [? ?]).
    apply load_lines_spec.
Qed.

(** X14. A line of [.env.local] makes an assignment exactly when, once
    stripped, it is not empty, does not start with [#] and has an [=] in
    it; the name is what stands before the first [=] and the value all
    that follows it (further [=] included), both stripped. *)
Theorem parse_line_cases (raw : string) :
  let line := Py.strip raw in
  (line = EmptyString → parse_line raw = None)
  ∧ (String.prefix "#" line = true → parse_line raw = None)
  ∧ (has_char "=" line = false → parse_line raw = None)
  ∧ (∀ k v,
       line = k +:+ "=" +:+ v → has_char "=" k = false →
       String.prefix "#" line = false →
       parse_line raw = Some (Py.strip k, Py.strip v)).
Proof.
  intros line. unfold parse_line. fold line. split; [|split; [|split]].
  - by intros ->.
  - intros ->. by rewrite andb_false_r.
  - intros H. by rewrite contains_char, H, andb_false_r.
  - intros k v Hline Hk Hhash. rewrite Hhash, contains_char.
    rewrite Hline. change ("=" +:+ v) with (String "=" v).
    rewrite has_char_app. cbn [has_char]. rewrite Ascii.eqb_refl, orb_true_r.
    rewrite truthy_app_char_any, split1_first by done. done.
Qed.

Lemma parse_line_cases_witness :
  parse_line "  ANTHROPIC_API_KEY = sk=1  " = Some ("ANTHROPIC_API_KEY", "sk=1")
  ∧ parse_line (nbsp +:+ "KEY" +:+ nbsp +:+ "=val" +:+ nbsp) = Some ("KEY", "val").
Proof.
  split.
  - destruct (parse_line_cases "  ANTHROPIC_API_KEY = sk=1  ") as (_ & _ & _ & H).
    exact (H "ANTHROPIC_API_KEY " " sk=1" eq_refl eq_refl eq_refl).
  - destruct (parse_line_cases (nbsp +:+ "KEY" +:+ nbsp +:+ "=val" +:+ nbsp))
      as (_ & _ & _ & H).
    exact (H ("KEY" +:+ nbsp) "val" eq_refl eq_refl eq_refl).
Defined.

Lemma load_env_spec_witness :
  let text := "# keys" +:+ Py.nl +:+ "ANTHROPIC_API_KEY=old" +:+ Py.nl
              +:+ "ANTHROPIC_API_KEY = sk-1" +:+ nbsp +:+ Py.nl in
  ∃ env',
    load_env ∅ (Some text) = Some env'
    ∧ env' !! api_key_name = Some "sk-1".
Proof.
  intros text.
  destruct (load_env_spec ∅ None text EmptyString) as (_ & _ & H).
  destruct (H eq_refl) as [Hret Hval].
  destruct (proj2 Hret) as [env' Henv].
  { vm_compute. repeat constructor. }
  exists env'. split; [exact Henv|]. exact (Hval env' Henv api_key_name).
Defined.

End LoadEnv.

(** ** The acquisition run *)

Section AcquireRun.

Import Acquire Spec.

Lemma fallback_asked_app (t u : list Step) :
  fallback_asked (t ++ u) = fallback_asked t || fallback_asked u.
Proof. apply existsb_app. Qed.

Lemma fallback_asked_emit (es : list Event) :
  fallback_asked (map Emit es) = false.
Proof. induction es; [done|]. exact IHes. Qed.

Lemma fallback_asked_prints (lines : list string) :
  fallback_asked (prints lines) = false.
Proof. induction lines; [done|]. exact IHlines. Qed.

Lemma emitted_app (t u : list Step) : emitted (t ++ u) = emitted t ++ emitted u.
Proof. apply omap_app. Qed.

Lemma emitted_emit (es : list Event) : emitted (map Emit es) = es.
Proof.
  induction es as [|e es IH]; [done|].
  change (emitted (map Emit (e :: es))) with (e :: emitted (map Emit es)).
  by rewrite IH.
Qed.

Lemma writes_emitted_prints (lines : list string) :
  writes (emitted (prints lines)) = [].
Proof. induction lines; [done|]. exact IHlines. Qed.

(** X15. The acquisition script asks the fallback source exactly when the
    first source gave nothing (no list, or an empty one).  When both give
    nothing it stops with exit code 1 and writes nothing.  When it
    returns normally it has written, as JSON and as Markdown, the
    paragraphs merged with the defaults 30.0 and 1.5 from the segments of
    the first source that gave any. *)
Theorem acquire_main_cases (w : World) (video_id episode_num : string) :
  argv w !! 1%nat = Some video_id →
  argv w !! 2%nat = Some episode_num →
  let first := (fetch_with_api w video_id).2 in
  let second := (fetch_with_ytdlp w video_id).2 in
  let chosen := if got first then first else second in
  let merged :=
    Fetch.merge_into_paragraphs (default [] chosen) 30 1.5 in
  fallback_asked (steps (main w)) = negb (got first)
  ∧ (got chosen = false →
     status (main w) = SysExit 1 ∧ writes (emitted (steps (main w))) = [])
  ∧ (got chosen = true → status (main w) ≠ SysExit 1)
  ∧ (status (main w) = Returned →
     got chosen = true
     ∧ ∃ md,
         markdown merged = Some md
         ∧ writes (emitted (steps (main w)))
           = [WriteJson (path_join [episode_dir_of w episode_num;
                                    "transcript.en.json"]) merged;
              WriteFile (path_join [episode_dir_of w episode_num;
                                    "transcript.en.md"]) md]).
Proof.
  intros Hv He. unfold main, episode_dir_of. rewrite Hv, He.
  destruct (fetch_with_api w video_id) as [out1 first].
  destruct (fetch_with_ytdlp w video_id) as [out2 second].
  cbn [snd].
  destruct first as [[|s1 r1]|], second as [[|s2 r2]|];
    cbn [got negb default steps status];
    repeat match goal with
           | |- context [last ?m] => destruct (last m)
           | |- context [format_time ?x] => destruct (format_time x)
           end;
    unfold Fetch.save_transcript;
    try match goal with
        | |- context [markdown ?m] => destruct (markdown m) eqn:Hmd
        end;
    cbn [trace exit steps status];
    rewrite ?fallback_asked_app, ?emitted_app, ?writes_app,
      ?fallback_asked_prints, ?fallback_asked_emit, ?emitted_emit,
      ?writes_emitted_prints, ?writes_app;
    cbn [fallback_asked existsb is_fallback orb emitted omap list_omap
         writes List.filter is_write app].
  all: split; [reflexivity|]; split; [done|]; split; [done|].
  all: intros Hret; try discriminate Hret.
  all: split; [done|]; eexists; split; [exact Hmd|reflexivity].
Qed.

Lemma acquire_main_cases_witness :
  let w := {| argv := ["fetch-transcript.py"; "abc"; "66"];
              project_root := "/p";
              fetch_with_api := λ _, (["  youtube-transcript-api failed: x"], None);
              fetch_with_ytdlp := λ _, ([], Some pause_example) |} in
  fallback_asked (steps (main w)) = true
  ∧ status (main w) ≠ SysExit 1.
Proof.
  intros w.
  destruct (acquire_main_cases w "abc" "66" eq_refl eq_refl)
    as (Hasked & _ & Hgot & _).
  split; [exact Hasked|]. apply Hgot. reflexivity.
Defined.

End AcquireRun.

(** ** Section titles *)

Section Titles.

Import Edit Spec.

(** Looking for a string that starts with [c] past a text without [c]. *)
Lemma find_skip (c : ascii) (sub pre s : string) :
  has_char c pre = false →
  Py.find (String c sub) (pre +:+ s)
  = (λ n, String.length pre + n)%nat <$> Py.find (String c sub) s.
Proof.
  induction pre as [|x pre IH]; intros Hpre.
  - change (EmptyString +:+ s) with s. by destruct (Py.find _ s).
  - cbn [has_char] in Hpre. apply orb_false_iff in Hpre as [Hx Hpre].
    change (String x pre +:+ s) with (String x (pre +:+ s)).
    cbn [Py.find String.prefix].
    destruct (Ascii.ascii_dec c x) as [->|_]; [by rewrite Ascii.eqb_refl in Hx|].
    rewrite (IH Hpre). by destruct (Py.find _ s).
Qed.

Lemma substring_skip (a b : string) (n : nat) :
  String.substring (String.length a) n (a +:+ b) = String.substring 0 n b.
Proof.
  induction a as [|x a IH]; [done|].
  change (String x a +:+ b) with (String x (a +:+ b)). exact IH.
Qed.

Lemma substring_take (t rest : string) :
  String.substring 0 (String.length t) (t +:+ rest) = t.
Proof.
  induction t as [|x t IH]; [by destruct rest|].
  change (String x t +:+ rest) with (String x (t +:+ rest)). cbn. by rewrite IH.
Qed.

Lemma length_app_string (a b : string) :
  String.length (a +:+ b) = (String.length a + String.length b)%nat.
Proof.
  induction a as [|x a IH]; [done|].
  change (String x a +:+ b) with (String x (a +:+ b)). cbn. by rewrite IH.
Qed.

(** X16. A line that holds a heading, with no other tag before or inside
    it, gives the title between the opening and the closing tag, as the
    entry [- <title>], whatever follows the closing tag. *)
Theorem title_of_line_heading (pre title post : string) :
  has_char "<" pre = false → has_char "<" title = false →
  title_of_line (pre +:+ "<h2>" +:+ title +:+ "</h2>" +:+ post)
  = Some ("- " +:+ title).
Proof.
  intros Hpre Htitle.
  assert (Hopen : Py.find "<h2>" (pre +:+ "<h2>" +:+ title +:+ "</h2>" +:+ post)
                  = Some (String.length pre)).
  { rewrite find_skip by done. rewrite find_here. cbn. f_equal. lia. }
  assert (Hclose : Py.find "</h2>" (pre +:+ "<h2>" +:+ title +:+ "</h2>" +:+ post)
                   = Some (String.length pre + 4 + String.length title)%nat).
  { rewrite find_skip by done.
    change ("<h2>" +:+ title +:+ "</h2>" +:+ post)
      with (String "<" ("h2>" +:+ title +:+ "</h2>" +:+ post)).
    cbn [Py.find]. change (String.prefix "</h2>" (String "<" _)) with false.
    cbn match.
    rewrite <- (string_app_assoc "h2>" title).
    rewrite (find_skip "<" "/h2>" ("h2>" +:+ title))
      by (rewrite has_char_app; by rewrite Htitle).
    rewrite find_here, length_app_string. cbn. f_equal. lia. }
  unfold title_of_line, Py.contains. rewrite Hopen, Hclose.
  rewrite !bool_decide_eq_true_2 by by eexists. cbn [andb mbind option_bind].
  do 2 f_equal. unfold Py.slice_str.
  replace (String.length pre + 4 + String.length title - (String.length pre + 4))%nat
    with (String.length title) by lia.
  replace (String.length pre + 4)%nat with (String.length (pre +:+ "<h2>"))
    by (rewrite length_app_string; done).
  rewrite <- (string_app_assoc pre "<h2>").
  by rewrite substring_skip, substring_take.
Qed.

Lemma title_of_line_heading_witness :
  title_of_line "    <h2>La Ley del Uno</h2>" = Some "- La Ley del Uno".
Proof.
  exact (title_of_line_heading "    " "La Ley del Uno" EmptyString
           eq_refl eq_refl).
Defined.

End Titles.

(** ** Texts without a heading; answers with one line per segment *)

Section Lines.

Import Spec.

(** What does not occur in a text occurs in none of its lines. *)
Lemma contains_line (sub s line : string) :
  Py.contains sub s = false → line ∈ Py.split Py.nl_char s →
  Py.contains sub line = false.
Proof.
  unfold Py.contains. intros Hs Hline.
  apply bool_decide_eq_false in Hs. apply bool_decide_eq_false.
  intros Hfound. apply Hs.
  destruct (find_Some_cut _ _ Hfound) as (a & b & ->).
  destruct (split_elem_cut _ _ _ Hline) as (x & y & ->).
  rewrite !string_app_assoc, <- (string_app_assoc x a).
  apply find_occurs.
Qed.

(** X17. A fragment in which the opening tag, or the closing tag, of a
    heading does not occur gives no title: the extracted string is empty
    and the carried string grows by a newline alone. *)
Theorem no_heading_no_title (html previous : string) :
  Py.contains "<h2>" html = false ∨ Py.contains "</h2>" html = false →
  Edit.section_titles html = []
  ∧ Edit.extract_section_titles html = EmptyString
  ∧ previous +:+ Edit.extract_section_titles html +:+ Py.nl
    = previous +:+ Py.nl.
Proof.
  intros Hno.
  assert (Hnone : Edit.section_titles html = []).
  { unfold Edit.section_titles.
    assert (Hall : Forall (λ line, Edit.title_of_line line = None)
                     (Py.split Py.nl_char html)).
    { apply Forall_forall. intros line Hline. unfold Edit.title_of_line.
      destruct Hno as [Hno|Hno];
        rewrite (contains_line _ _ _ Hno Hline); by rewrite ?andb_false_r. }
    induction Hall as [|line lines Hl _ IH]; [done|].
    cbn [omap list_omap]. by rewrite Hl. }
  unfold Edit.extract_section_titles. rewrite Hnone. done.
Qed.

Lemma no_heading_no_title_witness :
  Edit.extract_section_titles "<section><p>Hola</p></section>" = EmptyString.
Proof.
  apply (no_heading_no_title "<section><p>Hola</p></section>" EmptyString).
  left. reflexivity.
Defined.

Lemma split_one_line (l : string) :
  one_line l → Py.split Py.nl_char l = [l].
Proof.
  induction l as [|c l IH]; [done|]. intros [Hc Hl]. cbn [Py.split].
  rewrite (proj2 (Ascii.eqb_neq c Py.nl_char) Hc). by rewrite (IH Hl).
Qed.

(** Splitting what [join] joined. *)
Lemma split_join (lines : list string) :
  lines ≠ [] → Forall one_line lines →
  Py.split Py.nl_char (Py.join Py.nl lines) = lines.
Proof.
  intros Hne Hall. induction Hall as [|l lines Hl Hall IH]; [done|].
  destruct lines as [|l2 lines].
  - by apply split_one_line.
  - change (Py.join Py.nl (l :: l2 :: lines))
      with (l +:+ Py.nl +:+ Py.join Py.nl (l2 :: lines)).
    rewrite split_one_line_app by done. by rewrite IH.
Qed.

(** X18. When the answer of the service, stripped, is made of the lines
    [lines], the translated segments are the segments of the chunk paired
    in order with these lines, each with the text kept from its line:
    with one line per segment every segment is translated by its own
    line. *)
Theorem pair_translation_lines (segments : list Segment)
    (translated_text : string) (lines : list string) :
  lines ≠ [] → Forall one_line lines →
  Py.strip translated_text = Py.join Py.nl lines →
  Translate.pair_translation segments translated_text
  = zip_with Translate.translated_segment segments lines
  ∧ (length lines = length segments →
     map text (Translate.pair_translation segments translated_text)
     = map Translate.line_text lines).
Proof.
  intros Hne Hall Hstrip. unfold Translate.pair_translation.
  rewrite Hstrip, split_join by done. split; [done|].
  intros Hlen. clear -Hlen. revert lines Hlen.
  induction segments as [|seg segments IH]; intros [|l ls] Hlen; try done.
  cbn. f_equal. apply IH. by injection Hlen.
Qed.

Lemma pair_translation_lines_witness :
  map text (Translate.pair_translation short_translation_example
              ("[0:00] uno" +:+ Py.nl +:+ "[0:04] dos" +:+ Py.nl
               +:+ "[0:08] tres" +:+ Py.nl))
  = ["uno"; "dos"; "tres"]
  ∧ Translate.pair_translation short_translation_example
      ("[0:00] uno" +:+ Py.nl +:+ nbsp)
    = zip_with Translate.translated_segment short_translation_example
        ["[0:00] uno"].
Proof.
  split.
  - destruct (pair_translation_lines short_translation_example
                ("[0:00] uno" +:+ Py.nl +:+ "[0:04] dos" +:+ Py.nl
                 +:+ "[0:08] tres" +:+ Py.nl)
                ["[0:00] uno"; "[0:04] dos"; "[0:08] tres"]) as [_ H].
    + done.
    + repeat (apply List.Forall_cons; [apply one_line_has_char; reflexivity|]).
      apply List.Forall_nil.
    + reflexivity.
    + exact (H eq_refl).
  - apply (pair_translation_lines short_translation_example
             ("[0:00] uno" +:+ Py.nl +:+ nbsp) ["[0:00] uno"]).
    + done.
    + repeat (apply List.Forall_cons; [apply one_line_has_char; reflexivity|]).
      apply List.Forall_nil.
    + reflexivity.
Defined.

End Lines.
